(** * CatSocks: a SOCKS5 relay over a Quectel modem driven by AT commands

    Shallow embedding of [src/CatSocks/CatSocks.py] and the properties the
    design document states about it.

    Layout of the development:
    - [Py]      : the Python built-ins the program uses on [bytes] and [str]
                  (UTF-8 codec, [splitlines], [strip], [split], [int], ...);
    - [Env]     : the world the program runs in (clock, serial port, client
                  socket), and the monad of effectful computations;
    - [CatSocks]: the program itself, function by function;
    - [Threads] : the interleaving of the client threads spawned by [main];
    - the theorems. *)

From Stdlib Require Import ZArith List Bool Lia Arith.
From Stdlib Require Import String Ascii DecimalString.
From Stdlib Require DecimalPos.
From Equations Require Import Equations.
Import ListNotations.

(** [length] is the length of a list throughout. *)
Abbreviation length := List.length.

Local Open Scope Z_scope.

(* ===================================================================== *)
(** * Python built-ins *)
(* ===================================================================== *)

Module Py.

(** A byte is an integer in [0, 256); a [bytes] object is a list of them.
    A [str] is a list of Unicode code points. *)
Definition byte := Z.
Definition bytes := list Z.
Definition str := list Z.

(** ASCII literals, usable both as [bytes] and as [str]. *)
Definition lit (s : string) : list Z :=
  map (fun b => Z.of_N (Byte.to_N b)) (list_byte_of_string s).

Definition is_byte (b : Z) : Prop := 0 <= b < 256.
Definition is_ascii (b : Z) : bool := (0 <=? b) && (b <? 128).

Fixpoint list_eqb (a b : list Z) : bool :=
  match a, b with
  | [], [] => true
  | x :: a', y :: b' => (x =? y) && list_eqb a' b'
  | _, _ => false
  end.

(** [s.startswith(p)] *)
Fixpoint startswith (p s : list Z) : bool :=
  match p, s with
  | [], _ => true
  | x :: p', y :: s' => (x =? y) && startswith p' s'
  | _ :: _, [] => false
  end.

(** [s.endswith(p)] *)
Definition endswith (p s : list Z) : bool :=
  startswith (rev p) (rev s).

(** [p in s] for two strings: [p] occurs as a contiguous run of [s]. *)
Fixpoint contains (p s : list Z) : bool :=
  startswith p s ||
  match s with
  | [] => false
  | _ :: s' => contains p s'
  end.

(** ** The UTF-8 codec

    [utf8_items] follows CPython's decoder: each item is either a decoded code
    point or the mark of a decoding error, placed where the error handler is
    called.  An error covers the bytes the decoder reports as undecodable (one
    byte for a bad start byte, the bytes read so far for a bad continuation
    byte, everything left for a sequence cut by the end of the input); decoding
    resumes right after them. *)
Definition is_cont (b : Z) : bool := (0x80 <=? b) && (b <=? 0xBF).

Definition cp2 (c c2 : Z) : Z :=
  Z.lor (Z.shiftl (Z.land c 0x1F) 6) (Z.land c2 0x3F).
Definition cp3 (c c2 c3 : Z) : Z :=
  Z.lor (Z.lor (Z.shiftl (Z.land c 0x0F) 12) (Z.shiftl (Z.land c2 0x3F) 6))
        (Z.land c3 0x3F).
Definition cp4 (c c2 c3 c4 : Z) : Z :=
  Z.lor (Z.lor (Z.lor (Z.shiftl (Z.land c 0x07) 18)
                      (Z.shiftl (Z.land c2 0x3F) 12))
               (Z.shiftl (Z.land c3 0x3F) 6))
        (Z.land c4 0x3F).

(** Second byte of a three-byte sequence: a continuation byte that gives
    neither an overlong form (after 0xE0) nor a surrogate (after 0xED). *)
Definition ok2_of3 (c c2 : Z) : bool :=
  is_cont c2 &&
  negb (if c2 <? 0xA0 then c =? 0xE0 else c =? 0xED).

(** Second byte of a four-byte sequence: no overlong form (after 0xF0) and
    nothing beyond U+10FFFF (after 0xF4). *)
Definition ok2_of4 (c c2 : Z) : bool :=
  is_cont c2 &&
  negb (if c2 <? 0x90 then c =? 0xF0 else c =? 0xF4).

Fixpoint utf8_items (s : bytes) : list (option Z) :=
  match s with
  | [] => []
  | c :: t1 =>
    if c <? 0x80 then Some c :: utf8_items t1
    else if c <? 0xC2 then None :: utf8_items t1
    else if c <? 0xE0 then
      match t1 with
      | [] => [None]
      | c2 :: t2 =>
        if is_cont c2 then Some (cp2 c c2) :: utf8_items t2
        else None :: utf8_items t1
      end
    else if c <? 0xF0 then
      match t1 with
      | [] => [None]
      | c2 :: t2 =>
        if ok2_of3 c c2 then
          match t2 with
          | [] => [None]
          | c3 :: t3 =>
            if is_cont c3 then Some (cp3 c c2 c3) :: utf8_items t3
            else None :: utf8_items t2
          end
        else None :: utf8_items t1
      end
    else if c <? 0xF5 then
      match t1 with
      | [] => [None]
      | c2 :: t2 =>
        if ok2_of4 c c2 then
          match t2 with
          | [] => [None]
          | c3 :: t3 =>
            if is_cont c3 then
              match t3 with
              | [] => [None]
              | c4 :: t4 =>
                if is_cont c4 then Some (cp4 c c2 c3 c4) :: utf8_items t4
                else None :: utf8_items t3
              end
            else None :: utf8_items t2
          end
        else None :: utf8_items t1
      end
    else None :: utf8_items t1
  end.

Fixpoint somes (l : list (option Z)) : list Z :=
  match l with
  | [] => []
  | Some c :: l' => c :: somes l'
  | None :: l' => somes l'
  end.

Fixpoint all_some (l : list (option Z)) : option (list Z) :=
  match l with
  | [] => Some []
  | Some c :: l' => option_map (cons c) (all_some l')
  | None :: _ => None
  end.

(** [b.decode(errors='ignore')]: undecodable bytes are dropped. *)
Definition decode_ignore (b : bytes) : str := somes (utf8_items b).

(** [b.decode()]: [None] stands for [UnicodeDecodeError]. *)
Definition decode_strict (b : bytes) : option str := all_some (utf8_items b).

(** [s.encode()]: [None] stands for [UnicodeEncodeError] (a surrogate, or a
    value that is no code point). *)
Definition encode_cp (c : Z) : option bytes :=
  if c <? 0 then None
  else if c <? 0x80 then Some [c]
  else if c <? 0x800 then
    Some [Z.lor 0xC0 (Z.shiftr c 6); Z.lor 0x80 (Z.land c 0x3F)]
  else if (0xD800 <=? c) && (c <=? 0xDFFF) then None
  else if c <? 0x10000 then
    Some [Z.lor 0xE0 (Z.shiftr c 12);
          Z.lor 0x80 (Z.land (Z.shiftr c 6) 0x3F);
          Z.lor 0x80 (Z.land c 0x3F)]
  else if c <? 0x110000 then
    Some [Z.lor 0xF0 (Z.shiftr c 18);
          Z.lor 0x80 (Z.land (Z.shiftr c 12) 0x3F);
          Z.lor 0x80 (Z.land (Z.shiftr c 6) 0x3F);
          Z.lor 0x80 (Z.land c 0x3F)]
  else None.

Fixpoint encode (s : str) : option bytes :=
  match s with
  | [] => Some []
  | c :: s' =>
    match encode_cp c, encode s' with
    | Some b, Some r => Some (b ++ r)
    | _, _ => None
    end
  end.

(** ** [str] methods *)

(** The characters [str.splitlines] breaks lines at (besides CR LF). *)
Definition is_linebreak (c : Z) : bool :=
  ((10 <=? c) && (c <=? 13)) || ((28 <=? c) && (c <=? 30)) ||
  (c =? 0x85) || (c =? 0x2028) || (c =? 0x2029).

(** [s.splitlines()], with [cur] the current line, reversed. *)
Fixpoint splitlines_from (cur : str) (s : str) : list str :=
  match s with
  | [] => match cur with [] => [] | _ => [rev cur] end
  | c :: rest =>
    if c =? 13 then
      match rest with
      | c' :: rest' =>
        if c' =? 10 then rev cur :: splitlines_from [] rest'
        else rev cur :: splitlines_from [] rest
      | [] => rev cur :: splitlines_from [] rest
      end
    else if is_linebreak c then rev cur :: splitlines_from [] rest
    else splitlines_from (c :: cur) rest
  end.

Definition splitlines (s : str) : list str := splitlines_from [] s.

(** The characters [str.isspace] accepts, which [str.strip] removes. *)
Definition is_space (c : Z) : bool :=
  ((9 <=? c) && (c <=? 13)) || ((28 <=? c) && (c <=? 32)) ||
  (c =? 0x85) || (c =? 0xA0) || (c =? 0x1680) ||
  ((0x2000 <=? c) && (c <=? 0x200A)) ||
  (c =? 0x2028) || (c =? 0x2029) || (c =? 0x202F) || (c =? 0x205F) ||
  (c =? 0x3000).

Fixpoint lstrip (s : str) : str :=
  match s with
  | [] => []
  | c :: s' => if is_space c then lstrip s' else s
  end.

Definition rstrip (s : str) : str := rev (lstrip (rev s)).

(** [s.strip()] *)
Definition strip (s : str) : str := rstrip (lstrip s).

(** [s.split(sep)] for a one-character separator, with [cur] the current
    field, reversed.  The result is never empty. *)
Fixpoint split_from (sep : Z) (cur : str) (s : str) : list str :=
  match s with
  | [] => [rev cur]
  | c :: s' =>
    if c =? sep then rev cur :: split_from sep [] s'
    else split_from sep (c :: cur) s'
  end.

Definition split (sep : Z) (s : str) : list str := split_from sep [] s.

(** [l[-1]] on a list that is never empty. *)
Definition last_field (l : list str) : str := last l [].

(** ** [int(s)]

    [int] of a [str], base 10, as CPython 3.11 computes it.  First every
    character from 127 on is replaced: white space by a space, a decimal
    digit of any script by the ASCII digit of its value; any other makes the
    call fail.  The characters below 127 stay as they are.  Then spaces of
    the C locale are skipped at both ends (the separators 0x1C to 0x1F are
    not among them), an optional sign is read, and decimal digits with
    single underscores between them.  A literal of more than 4300 digits is
    refused.  [None] stands for [ValueError]. *)
Definition is_digit (c : Z) : bool := (48 <=? c) && (c <=? 57).

(** The zeros of the decimal digits outside ASCII (Unicode 14.0, the table
    of Python 3.11); the nine characters after each are its digits 1 to 9. *)
Definition decimal_zeros : list Z :=
  [0x660; 0x6F0; 0x7C0; 0x966; 0x9E6; 0xA66; 0xAE6; 0xB66; 0xBE6; 0xC66;
   0xCE6; 0xD66; 0xDE6; 0xE50; 0xED0; 0xF20; 0x1040; 0x1090; 0x17E0;
   0x1810; 0x1946; 0x19D0; 0x1A80; 0x1A90; 0x1B50; 0x1BB0; 0x1C40; 0x1C50;
   0xA620; 0xA8D0; 0xA900; 0xA9D0; 0xA9F0; 0xAA50; 0xABF0; 0xFF10; 0x104A0;
   0x10D30; 0x11066; 0x110F0; 0x11136; 0x111D0; 0x112F0; 0x11450; 0x114D0;
   0x11650; 0x116C0; 0x11730; 0x118E0; 0x11950; 0x11C50; 0x11D50; 0x11DA0;
   0x16A60; 0x16AC0; 0x16B50; 0x1D7CE; 0x1D7D8; 0x1D7E2; 0x1D7EC; 0x1D7F6;
   0x1E140; 0x1E2F0; 0x1E950; 0x1FBF0].

(** [Py_UNICODE_TODECIMAL] *)
Definition decimal_value (c : Z) : option Z :=
  option_map (fun z => c - z)
    (find (fun z => (z <=? c) && (c <? z + 10)) (48 :: decimal_zeros)).

(** [_PyUnicode_TransformDecimalAndSpaceToASCII] *)
Fixpoint to_ascii_decimal (s : str) : option str :=
  match s with
  | [] => Some []
  | c :: s' =>
    let c' := if c <? 127 then Some c
              else if is_space c then Some 32
              else option_map (fun d => 48 + d) (decimal_value c) in
    match c', to_ascii_decimal s' with
    | Some x, Some r => Some (x :: r)
    | _, _ => None
    end
  end.

(** [Py_ISSPACE] *)
Definition is_c_space (c : Z) : bool :=
  ((9 <=? c) && (c <=? 13)) || (c =? 32).

Fixpoint skip_c_space (s : str) : str :=
  match s with
  | [] => []
  | c :: s' => if is_c_space c then skip_c_space s' else s
  end.

(** [sys.get_int_max_str_digits()], by default. *)
Definition MAX_STR_DIGITS : nat := 4300.

(** [digits_from acc prev_digit s]: the value of a run of digits and
    underscores; [prev_digit] tells whether the last character was a digit. *)
Fixpoint digits_from (acc : Z) (prev_digit : bool) (s : str) : option Z :=
  match s with
  | [] => if prev_digit then Some acc else None
  | c :: s' =>
    if is_digit c then digits_from (10 * acc + (c - 48)) true s'
    else if (c =? 95) && prev_digit then digits_from acc false s'
    else None
  end.

(** The digits of a literal, under the limit on their number. *)
Definition limited_digits (s : str) : option Z :=
  if (MAX_STR_DIGITS <? length (filter is_digit s))%nat then None
  else digits_from 0 false s.

Definition int_of_str (s : str) : option Z :=
  match to_ascii_decimal s with
  | None => None
  | Some a =>
    match rev (skip_c_space (rev (skip_c_space a))) with
    | [] => None
    | c :: s' =>
      if c =? 45 then option_map Z.opp (limited_digits s')
      else if c =? 43 then limited_digits s'
      else limited_digits (c :: s')
    end
  end.

(** [str(n)] for an integer, as an f-string formats it. *)
Definition str_of_int (n : Z) : str :=
  lit (NilZero.string_of_int (Z.to_int n)).

(** [socket.inet_ntoa]: [None] stands for [OSError] (not four bytes). *)
Definition inet_ntoa (b : bytes) : option str :=
  match b with
  | [a; b; c; d] =>
    Some (str_of_int a ++ lit "." ++ str_of_int b ++ lit "." ++
          str_of_int c ++ lit "." ++ str_of_int d)
  | _ => None
  end.

End Py.

Import Py.

(* ===================================================================== *)
(** * The environment: clock, serial port, client socket *)
(* ===================================================================== *)

Module Env.

(** What the program does to the outside world, in the order it does it. *)
Inductive event : Type :=
| SerWrite (b : bytes)      (* ser.write(b) *)
| SerRead (b : bytes)       (* ser.read(n) or ser.readline() returned b *)
| SerReset (b : bytes)      (* ser.reset_input_buffer() threw b away *)
| CliRecv (b : bytes)       (* client_sock.recv(n) returned b *)
| CliSend (b : bytes)       (* client_sock.sendall put b on the socket *)
| CliClose.                 (* client_sock.close() *)

(** The Python exceptions the program can meet. *)
Inductive exn : Type :=
| TimeoutError (msg : string)
| StructError
| IndexError
| ValueError
| OSError
| UnicodeDecodeError
| UnicodeEncodeError
| BlockingIOError.

(** The state of the world.
    - [clock] is [time.time()], in milliseconds.
    - [rx] holds the bytes the modem sends that the program has not read
      yet, each with the time it reaches the port, oldest first.  The bytes
      whose time has come are in the input buffer; the others are still to
      come.  When [rx] is empty the modem stays silent for ever.
    - [cin] holds the segments the client sends that the program has not
      received yet; an empty segment is the end of the stream.  When [cin] is
      empty the client stays silent for ever.
    - [cblocking] is the mode of the client socket.
    - [trace] is the list of events so far, oldest first. *)
Record World : Type := mkWorld {
  clock : Z;
  rx : list (Z * byte);
  cin : list bytes;
  cblocking : bool;
  trace : list event
}.

Definition set_clock (t : Z) (w : World) : World :=
  mkWorld t (rx w) (cin w) (cblocking w) (trace w).
Definition set_rx (r : list (Z * byte)) (w : World) : World :=
  mkWorld (clock w) r (cin w) (cblocking w) (trace w).
Definition set_cin (c : list bytes) (w : World) : World :=
  mkWorld (clock w) (rx w) c (cblocking w) (trace w).
Definition set_cblocking (b : bool) (w : World) : World :=
  mkWorld (clock w) (rx w) (cin w) b (trace w).
Definition emit (e : event) (w : World) : World :=
  mkWorld (clock w) (rx w) (cin w) (cblocking w) (trace w ++ [e]).

(** The result of running a piece of the program: it returns a value, raises
    an exception, or blocks for ever in a call that never returns.
    [OutOfFuel] is the model's own: a loop was given fewer iterations than it
    needed; the theorems show that no function of the program ends there. *)
Inductive outcome (A : Type) : Type :=
| Ret (a : A) (w : World)
| Raise (e : exn) (w : World)
| Blocked (w : World)
| OutOfFuel.

Arguments Ret {A} a w.
Arguments Raise {A} e w.
Arguments Blocked {A} w.
Arguments OutOfFuel {A}.

Definition M (A : Type) : Type := World -> outcome A.

Definition ret {A} (a : A) : M A := fun w => Ret a w.

Definition bind {A B} (c : M A) (k : A -> M B) : M B :=
  fun w =>
    match c w with
    | Ret a w' => k a w'
    | Raise e w' => Raise e w'
    | Blocked w' => Blocked w'
    | OutOfFuel => OutOfFuel
    end.

Definition raise {A} (e : exn) : M A := fun w => Raise e w.

(** [try: body finally: fin] *)
Definition try_finally {A} (body : M A) (fin : M unit) : M A :=
  fun w =>
    match body w with
    | Ret a w' => bind fin (fun _ => ret a) w'
    | Raise e w' => bind fin (fun _ => raise e) w'
    | Blocked w' => Blocked w'
    | OutOfFuel => OutOfFuel
    end.

(** A value that may be an exception. *)
Definition or_raise {A} (e : exn) (o : option A) : M A :=
  match o with
  | Some a => ret a
  | None => raise e
  end.

(** [while]: the body returns [inl s] to go round again with state [s] and
    [inr r] to leave the loop with [r] (a [break] or a [return]). *)
Fixpoint loop {S R} (fuel : nat) (body : S -> M (S + R)) (s : S) : M R :=
  match fuel with
  | O => fun _ => OutOfFuel
  | Datatypes.S fuel' =>
    bind (body s) (fun r =>
      match r with
      | inl s' => loop fuel' body s'
      | inr v => ret v
      end)
  end.

(** ** The clock *)

(** [time.time()] *)
Definition now : M Z := fun w => Ret (clock w) w.

(** [time.sleep(d)] *)
Definition sleep (d : Z) : M unit := fun w => Ret tt (set_clock (clock w + d) w).

(** ** The serial port, opened with [timeout=None]: reads block until they
    have all the bytes they asked for. *)

(** The bytes in the input buffer at time [t]. *)
Fixpoint arrived (t : Z) (r : list (Z * byte)) : list (Z * byte) :=
  match r with
  | [] => []
  | (a, b) :: r' => if a <=? t then (a, b) :: arrived t r' else []
  end.

(** The bytes still to come at time [t]. *)
Fixpoint pending (t : Z) (r : list (Z * byte)) : list (Z * byte) :=
  match r with
  | [] => []
  | (a, b) :: r' => if a <=? t then pending t r' else r
  end.

(** The time by which all of [r] has arrived, when it is [t] now. *)
Fixpoint arrival (t : Z) (r : list (Z * byte)) : Z :=
  match r with
  | [] => t
  | (a, _) :: r' => arrival (Z.max t a) r'
  end.

(** [ser.in_waiting] *)
Definition in_waiting : M nat :=
  fun w => Ret (length (arrived (clock w) (rx w))) w.

(** [ser.reset_input_buffer()] *)
Definition reset_input_buffer : M unit :=
  fun w =>
    Ret tt (emit (SerReset (map snd (arrived (clock w) (rx w))))
                 (set_rx (pending (clock w) (rx w)) w)).

(** [ser.write(b)] *)
Definition ser_write (b : bytes) : M unit :=
  fun w => Ret tt (emit (SerWrite b) w).

(** [ser.read(n)] *)
Definition ser_read (n : nat) : M bytes :=
  fun w =>
    if (length (rx w) <? n)%nat then Blocked w
    else
      let got := firstn n (rx w) in
      Ret (map snd got)
          (emit (SerRead (map snd got))
                (set_rx (skipn n (rx w)) (set_clock (arrival (clock w) got) w))).

(** The number of bytes up to and including the first line feed. *)
Fixpoint line_length (r : list (Z * byte)) : option nat :=
  match r with
  | [] => None
  | (_, b) :: r' =>
    if b =? 10 then Some 1%nat else option_map Datatypes.S (line_length r')
  end.

(** [ser.readline()] *)
Definition ser_readline : M bytes :=
  fun w =>
    match line_length (rx w) with
    | None => Blocked w
    | Some n => ser_read n w
    end.

(** ** The client socket *)

(** [client_sock.recv(n)] *)
Definition cli_recv (n : nat) : M bytes :=
  fun w =>
    match n with
    | O => Ret [] (emit (CliRecv []) w)
    | _ =>
      match cin w with
      | [] => if cblocking w then Blocked w else Raise BlockingIOError w
      | [] :: _ => Ret [] (emit (CliRecv []) w)
      | seg :: rest =>
        let got := firstn n seg in
        let cin' := match skipn n seg with [] => rest | rem => rem :: rest end in
        Ret got (emit (CliRecv got) (set_cin cin' w))
      end
    end.

(** [client_sock.sendall(b)].  [room] is the number of bytes the socket
    takes in the course of the call.  A blocking socket waits until it has
    taken them all.  A non-blocking one raises [BlockingIOError] as soon as
    it can take no more, with the first [room] bytes of [b] sent.  A
    connection that the peer has reset is outside the model. *)
Definition cli_sendall_room (room : nat) (b : bytes) : M unit :=
  fun w =>
    if (length b <=? room)%nat || cblocking w
    then Ret tt (emit (CliSend b) w)
    else Raise BlockingIOError (emit (CliSend (firstn room b)) w).

(** [client_sock.sendall(b)] for the replies of the handshake, of two and of
    ten bytes: they are the first bytes sent on the connection, and the
    socket has room for them. *)
Definition cli_sendall (b : bytes) : M unit :=
  cli_sendall_room (length b) b.

(** [client_sock.close()] *)
Definition cli_close : M unit :=
  fun w => Ret tt (emit CliClose w).

(** [client_sock.setblocking(b)] *)
Definition cli_setblocking (b : bool) : M unit :=
  fun w => Ret tt (set_cblocking b w).

(** Enough iterations for a loop that reads at least one byte of the serial
    port each time round. *)
Definition rx_fuel (w : World) : nat := Datatypes.S (length (rx w)).

End Env.

Import Env.

Declare Scope monad_scope.
Delimit Scope monad_scope with monad.
Notation "x <- c ;; k" := (bind c (fun x => k))
  (at level 61, c at next level, right associativity) : monad_scope.
Notation "c ;;; k" := (bind c (fun _ => k))
  (at level 61, right associativity) : monad_scope.
Local Open Scope monad_scope.

(* ===================================================================== *)
(** * The program *)
(* ===================================================================== *)

Module CatSocks.

(** ** Configuration (times in milliseconds) *)
Definition MAX_CHUNK_SIZE : nat := 1024.
Definition PROMPT_TIMEOUT : Z := 5000.
Definition ACK_TIMEOUT : Z := 5000.

Definition CR : list Z := [13].
Definition CRLF : list Z := [13; 10].
Definition DQUOTE : list Z := [34].
Definition CTRL_Z : list Z := [0x1A].

(** [class QuectelModem]: the serial port itself is part of the world. *)
Record QuectelModem : Type := mkModem {
  cid : Z;
  sock_id : Z
}.

(** [s.encode()] *)
Definition encode_or_raise (s : str) : M bytes :=
  or_raise UnicodeEncodeError (encode s).

(** One turn of the [while True] of [_wait_for_rdy]. *)
Definition wait_for_rdy_turn (_ : unit) : M (unit + unit) :=
  raw <- ser_readline ;;
  let line := strip (decode_ignore raw) in
  if list_eqb line (lit "RDY") then ret (inr tt) else ret (inl tt).

(** [QuectelModem._wait_for_rdy] *)
Definition _wait_for_rdy : M unit :=
  fun w => loop (rx_fuel w) wait_for_rdy_turn tt w.

(** ["OK" in resp or "ERROR" in resp] *)
Definition has_terminal (resp : str) : bool :=
  contains (lit "OK") resp || contains (lit "ERROR") resp.

(** One turn of the [while time.time() < deadline] of [_send_at], with the
    response so far. *)
Definition send_at_turn (deadline : Z) (resp : str) : M (str + str) :=
  t <- now ;;
  if t <? deadline then
    n <- in_waiting ;;
    raw <- ser_read (match n with O => 1%nat | _ => n end) ;;
    match decode_ignore raw with
    | [] => ret (inl resp)
    | part =>
      let resp' := resp ++ part in
      if has_terminal resp' then ret (inr resp') else ret (inl resp')
    end
  else ret (inr resp).

(** [QuectelModem._send_at] *)
Definition _send_at (cmd : str) (timeout : Z) : M str :=
  reset_input_buffer ;;;
  out <- encode_or_raise (cmd ++ CR) ;;
  ser_write out ;;;
  t0 <- now ;;
  let deadline := t0 + timeout in
  fun w => loop (rx_fuel w) (send_at_turn deadline) [] w.

(** [f'AT+QIOPEN={self.cid},{self.sock_id},"TCP","{host}",{port},0,1'] *)
Definition qiopen_cmd (m : QuectelModem) (host : str) (port : Z) : str :=
  lit "AT+QIOPEN=" ++ str_of_int (cid m) ++ lit "," ++ str_of_int (sock_id m)
  ++ lit "," ++ DQUOTE ++ lit "TCP" ++ DQUOTE ++ lit "," ++ DQUOTE ++ host
  ++ DQUOTE ++ lit "," ++ str_of_int port ++ lit ",0,1".

(** [f"+QIOPEN: {self.sock_id},0"] and [f"+QIOPEN: {self.sock_id},"] *)
Definition qiopen_ok (m : QuectelModem) : str :=
  lit "+QIOPEN: " ++ str_of_int (sock_id m) ++ lit ",0".
Definition qiopen_any (m : QuectelModem) : str :=
  lit "+QIOPEN: " ++ str_of_int (sock_id m) ++ lit ",".

(** The [for line in buffer.splitlines()] of [open_tcp_direct_push]: the
    value it returns, if it returns. *)
Fixpoint scan_open_lines (m : QuectelModem) (lines : list str) : option bool :=
  match lines with
  | [] => None
  | line :: rest =>
    if contains (qiopen_ok m) line || list_eqb line (lit "CONNECT") then Some true
    else if contains (qiopen_any m) line then Some false
    else scan_open_lines m rest
  end.

(** One turn of the [while time.time() < deadline] of
    [open_tcp_direct_push], with the buffer so far. *)
Definition open_poll_turn (m : QuectelModem) (deadline : Z) (buffer : str)
  : M (str + bool) :=
  t <- now ;;
  if t <? deadline then
    n <- in_waiting ;;
    match n with
    | O => sleep 100 ;;; ret (inl buffer)
    | _ =>
      raw <- ser_read n ;;
      let buffer' := buffer ++ decode_ignore raw in
      match scan_open_lines m (splitlines buffer') with
      | Some v => ret (inr v)
      | None => sleep 100 ;;; ret (inl buffer')
      end
    end
  else ret (inr false).

(** The polling loop of [open_tcp_direct_push]. Every turn that does not
    return sleeps a tenth of a second, so the ten seconds are over after a
    hundred turns. *)
Definition open_poll (m : QuectelModem) : M bool :=
  t0 <- now ;;
  let deadline := t0 + 10000 in
  loop 101 (open_poll_turn m deadline) [].

(** [QuectelModem.open_tcp_direct_push] *)
Definition open_tcp_direct_push (m : QuectelModem) (host : str) (port : Z)
  : M bool :=
  _send_at (qiopen_cmd m host port) 2000 ;;;
  open_poll m.

(** One turn of the loop of [_wait_for_prompt]. *)
Definition wait_for_prompt_turn (deadline : Z) (_ : unit) : M (unit + bool) :=
  t <- now ;;
  if t <? deadline then
    b <- ser_read 1 ;;
    if list_eqb b (lit ">") then ret (inr true) else ret (inl tt)
  else ret (inr false).

(** [QuectelModem._wait_for_prompt] *)
Definition _wait_for_prompt : M bool :=
  t0 <- now ;;
  let deadline := t0 + PROMPT_TIMEOUT in
  fun w => loop (rx_fuel w) (wait_for_prompt_turn deadline) tt w.

(** [f"AT+QISEND={self.sock_id},{len(data)}\r"] *)
Definition qisend_cmd (m : QuectelModem) (n : nat) : str :=
  lit "AT+QISEND=" ++ str_of_int (sock_id m) ++ lit "," ++
  str_of_int (Z.of_nat n) ++ CR.

(** One turn of the loop of step 4 of [send_raw], with the line so far. *)
Definition read_ack_turn (deadline : Z) (line : bytes) : M (bytes + bool) :=
  t <- now ;;
  if t <? deadline then
    ch <- ser_read 1 ;;
    match ch with
    | [] => ret (inl line)
    | _ =>
      let line' := line ++ ch in
      if endswith CRLF line' then ret (inr true) else ret (inl line')
    end
  else ret (inr false).

(** Step 4 of [send_raw]: [true] when a line was read, [false] when the loop
    ran to its deadline. *)
Definition read_ack_line : M bool :=
  t0 <- now ;;
  let deadline := t0 + ACK_TIMEOUT in
  fun w => loop (rx_fuel w) (read_ack_turn deadline) [] w.

(** [QuectelModem.send_raw] *)
Definition send_raw (m : QuectelModem) (data : bytes) : M unit :=
  cmd <- encode_or_raise (qisend_cmd m (length data)) ;;
  ser_write cmd ;;;
  prompt <- _wait_for_prompt ;;
  if negb prompt then raise (TimeoutError "No '>' prompt")
  else
    ser_write data ;;;
    ser_write CTRL_Z ;;;
    acked <- read_ack_line ;;
    if acked then ret tt
    else raise (TimeoutError "Timeout waiting for QISEND response").

(** [QuectelModem.close_tcp] *)
Definition close_tcp (m : QuectelModem) : M unit :=
  _send_at (lit "AT+QICLOSE=" ++ str_of_int (sock_id m) ++ lit ",10") 2000 ;;;
  ret tt.

(** [QuectelModem.__init__] *)
Definition QuectelModem_init (cid sock_id : Z) : M QuectelModem :=
  _wait_for_rdy ;;;
  _send_at (lit "ATE0") 2000 ;;;
  ret (mkModem cid sock_id).

(** ** [handle_client] *)

(** What an iteration of the relay loop does next. *)
Inductive flow : Type := Continue | Break.

(** The slice [data[offset:offset+MAX_CHUNK_SIZE]] *)
Definition chunk_at (data : bytes) (offset : nat) : bytes :=
  firstn MAX_CHUNK_SIZE (skipn offset data).

(** One turn of the [while offset < len(data)] loop. *)
Definition send_chunks_turn (m : QuectelModem) (data : bytes) (offset : nat)
  : M (nat + unit) :=
  if (offset <? length data)%nat then
    let chunk := chunk_at data offset in
    let offset' := (offset + length chunk)%nat in
    send_raw m chunk ;;;
    ret (inl offset')
  else ret (inr tt).

(** The [while offset < len(data)] loop. *)
Definition send_chunks (m : QuectelModem) (data : bytes) : M unit :=
  loop (S (length data)) (send_chunks_turn m data) 0%nat.

(** Branch a) of the relay loop: client to modem. *)
Definition client_to_modem (m : QuectelModem) : M flow :=
  data <- cli_recv 4096 ;;
  match data with
  | [] => ret Break
  | _ => send_chunks m data ;;; ret Continue
  end.

(** One turn of the [while len(payload) < length] loop.  The read asks for
    all that is missing at once; a length so large that the library cannot
    allocate the buffer for it is outside the model, and the theorems about
    this loop speak of lengths whose bytes do arrive. *)
Definition read_payload_turn (len : Z) (payload : bytes) : M (bytes + bytes) :=
  if Z.of_nat (length payload) <? len then
    more <- ser_read (Z.to_nat (len - Z.of_nat (length payload))) ;;
    ret (inl (payload ++ more))
  else ret (inr payload).

(** The [while len(payload) < length] loop. *)
Definition read_payload (len : Z) : M bytes :=
  fun w => loop (rx_fuel w) (read_payload_turn len) [] w.

(** Branch b) of the relay loop: modem to client.  [room] is what the
    client socket can take of the payload. *)
Definition modem_to_client (room : nat) : M flow :=
  raw <- ser_readline ;;
  let line := strip (decode_ignore raw) in
  if startswith (lit "+QIURC") line && contains (lit "recv") line then
    len <- or_raise ValueError (int_of_str (last_field (split 44 line))) ;;
    payload <- read_payload len ;;
    cli_sendall_room room payload ;;;
    ret Continue
  else if contains (lit "closed") line then ret Break
  else ret Continue.

(** The relay loop.  [sel] lists, for the successive turns of the loop,
    what [select] returns, whether the client socket is readable and whether
    the serial port is, and how many bytes the client socket can take in
    that turn.  [select] has no timeout: when nothing more becomes readable
    it never returns. *)
Fixpoint relay_loop (m : QuectelModem) (sel : list (bool * bool * nat))
  : M unit :=
  match sel with
  | [] => fun w => Blocked w
  | (client_ready, serial_ready, room) :: sel' =>
    a <- (if client_ready then client_to_modem m else ret Continue) ;;
    match a with
    | Break => ret tt
    | Continue =>
      b <- (if serial_ready then modem_to_client room else ret Continue) ;;
      match b with
      | Break => ret tt
      | Continue => relay_loop m sel'
      end
    end
  end.

(** [struct.unpack("!H", b)[0]] *)
Definition unpack_H (b : bytes) : option Z :=
  match b with
  | [hi; lo] => Some (hi * 256 + lo)
  | _ => None
  end.

Definition REPLY_METHOD : bytes := [0x05; 0x00].
Definition REPLY_FAILED : bytes := [0x05; 0x01; 0x00; 0x01] ++ repeat 0x00 6.
Definition REPLY_SUCCEEDED : bytes := [0x05; 0x00; 0x00; 0x01] ++ repeat 0x00 6.

(** The SOCKS5 handshake: method negotiation. *)
Definition negotiate : M unit :=
  g <- cli_recv 2 ;;
  match g with
  | [ver; nmethods] =>
    cli_recv (Z.to_nat nmethods) ;;;
    cli_sendall REPLY_METHOD
  | _ => raise StructError
  end.

(** The first four bytes of the request: the command and the address type. *)
Definition read_request_header : M (Z * Z) :=
  hdr <- cli_recv 4 ;;
  match hdr with
  | [_; cmd; _; atyp] => ret (cmd, atyp)
  | _ => raise StructError
  end.

(** The address of the request: [None] when the address type is neither an
    IPv4 address nor a domain name, where [handle_client] returns. *)
Definition read_address (atyp : Z) : M (option str) :=
  if atyp =? 1 then
    a <- cli_recv 4 ;;
    addr <- or_raise OSError (inet_ntoa a) ;;
    ret (Some addr)
  else if atyp =? 3 then
    l <- cli_recv 1 ;;
    match l with
    | [] => raise IndexError
    | alen :: _ =>
      d <- cli_recv (Z.to_nat alen) ;;
      addr <- or_raise UnicodeDecodeError (decode_strict d) ;;
      ret (Some addr)
    end
  else ret None.

(** The port of the request. *)
Definition read_port : M Z :=
  p <- cli_recv 2 ;;
  or_raise StructError (unpack_H p).

(** From the opening of the modem's socket to the end of the relay. *)
Definition connect_and_relay (m : QuectelModem) (sel : list (bool * bool * nat))
  (addr : str) (port : Z) : M unit :=
  opened <- open_tcp_direct_push m addr port ;;
  if negb opened then cli_sendall REPLY_FAILED
  else
    cli_sendall REPLY_SUCCEEDED ;;;
    cli_setblocking false ;;;
    relay_loop m sel ;;;
    close_tcp m.

(** The request, once its header is read. *)
Definition serve_request (m : QuectelModem) (sel : list (bool * bool * nat))
  (cmd atyp : Z) : M unit :=
  if negb (cmd =? 1) then ret tt
  else
    a <- read_address atyp ;;
    match a with
    | None => ret tt
    | Some addr =>
      port <- read_port ;;
      connect_and_relay m sel addr port
    end.

(** [handle_client] *)
Definition handle_client (m : QuectelModem) (sel : list (bool * bool * nat))
  : M unit :=
  try_finally
    (negotiate ;;;
     h <- read_request_header ;;
     serve_request m sel (fst h) (snd h))
    cli_close.

End CatSocks.

Import CatSocks.

(* ===================================================================== *)
(** * The client threads *)
(* ===================================================================== *)

Module Threads.

(** [main] builds one [QuectelModem] and starts one thread per accepted
    client, each running [handle_client] on that one object.  Nothing in the
    program (no lock, no queue, no flag) orders the calls that different
    threads make on the modem: a thread goes into its next call whenever it
    is scheduled. *)

(** The calls of [handle_client] on the modem.  Each one is a command
    exchange on the serial link: it starts by writing a command and lasts
    until the call returns. *)
Inductive call : Type :=
| CallOpen      (* modem.open_tcp_direct_push(addr, port) *)
| CallSend      (* modem.send_raw(chunk) *)
| CallClose.    (* modem.close_tcp() *)

(** The modem calls of one run of [handle_client], in program order: the
    socket is opened; when that fails the thread ends; otherwise the relay
    loop sends [sends] chunks, and the socket is closed. *)
Definition client_calls (opened : bool) (sends : nat) : list call :=
  if opened then CallOpen :: repeat CallSend sends ++ [CallClose]
  else [CallOpen].

(** A thread is between two calls, with the calls it has still to make, or
    inside one. *)
Inductive thread : Type :=
| Between (todo : list call)
| Inside (c : call) (todo : list call).

(** What the serial link sees: thread [tid] begins or ends an exchange. *)
Inductive mark : Type :=
| Begin (tid : nat) (c : call)
| End (tid : nat) (c : call).

Record system : Type := mkSystem {
  threads : list thread;
  wire : list mark
}.

(** The scheduler lets [main] accept a client or lets a thread take a step. *)
Inductive action : Type :=
| Accept (opened : bool) (sends : nat)
| Run (tid : nat).

Definition step_thread (tid : nat) (t : thread) : thread * list mark :=
  match t with
  | Between [] => (Between [], [])
  | Between (c :: todo) => (Inside c todo, [Begin tid c])
  | Inside c todo => (Between todo, [End tid c])
  end.

Fixpoint set_nth (tid : nat) (t : thread) (l : list thread) : list thread :=
  match l, tid with
  | [], _ => []
  | _ :: l', O => t :: l'
  | x :: l', S tid' => x :: set_nth tid' t l'
  end.

Definition step (s : system) (a : action) : system :=
  match a with
  | Accept opened sends =>
    mkSystem (threads s ++ [Between (client_calls opened sends)]) (wire s)
  | Run tid =>
    match nth_error (threads s) tid with
    | None => s
    | Some t =>
      let (t', ms) := step_thread tid t in
      mkSystem (set_nth tid t' (threads s)) (wire s ++ ms)
    end
  end.

Definition initial : system := mkSystem [] [].

Definition run (sched : list action) : system := fold_left step sched initial.

(** The exchanges in progress after a log: those begun and not ended. *)
Definition apply_mark (open : list nat) (k : mark) : list nat :=
  match k with
  | Begin tid _ => tid :: open
  | End tid _ => remove Nat.eq_dec tid open
  end.

Definition in_progress (log : list mark) : list nat :=
  fold_left apply_mark log [].

(** The clients accepted by a schedule. *)
Definition accepted (sched : list action) : nat :=
  length (filter (fun a => match a with Accept _ _ => true | Run _ => false end)
                 sched).

End Threads.

(* ===================================================================== *)
(** * Definitions used to state the properties *)
(* ===================================================================== *)

(** The chunks of a payload: the first [MAX_CHUNK_SIZE] bytes, then the
    chunks of what is left. *)
#[local] Opaque skipn firstn.

Equations? chunks (data : bytes) : list bytes by wf (length data) lt :=
  chunks [] := [];
  chunks (b :: rest) :=
    firstn MAX_CHUNK_SIZE (b :: rest) :: chunks (skipn MAX_CHUNK_SIZE (b :: rest)).
Proof.
  rewrite length_skipn. unfold MAX_CHUNK_SIZE. simpl length. lia.
Qed.

#[local] Transparent skipn firstn.

(** One chunked send per chunk, in order; the first that fails ends it. *)
Fixpoint send_each (m : QuectelModem) (cs : list bytes) : M unit :=
  match cs with
  | [] => ret tt
  | c :: cs' => send_raw m c ;;; send_each m cs'
  end.

(** The bytes written to the serial port, in order. *)
Fixpoint written (tr : list event) : bytes :=
  match tr with
  | [] => []
  | SerWrite b :: tr' => b ++ written tr'
  | _ :: tr' => written tr'
  end.

(** The bytes read from the serial port, in order. *)
Fixpoint consumed (tr : list event) : bytes :=
  match tr with
  | [] => []
  | SerRead b :: tr' => b ++ consumed tr'
  | _ :: tr' => consumed tr'
  end.

(** The bytes sent to the client, in order. *)
Fixpoint sent (tr : list event) : bytes :=
  match tr with
  | [] => []
  | CliSend b :: tr' => b ++ sent tr'
  | _ :: tr' => sent tr'
  end.


(** ** Concrete worlds *)

(** The bytes [b], all reaching the port at time [t]. *)
Definition modem_says (t : Z) (b : bytes) : list (Z * byte) :=
  map (fun x => (t, x)) b.

(** A world at time 0 with nothing done yet. *)
Definition fresh_world (r : list (Z * byte)) (c : list bytes) : World :=
  mkWorld 0 r c true [].

(** The modem that [main] builds: context 1, socket 0. *)
Definition the_modem : QuectelModem := mkModem 1 0.

(** ** The lines that decide [open_tcp_direct_push] *)

(** A line that ends the wait: it holds the result of the open for this
    socket, or it is CONNECT. *)
Definition is_result_line (m : QuectelModem) (l : str) : bool :=
  contains (qiopen_any m) l || list_eqb l (lit "CONNECT").

(** A line that makes the open a success. *)
Definition is_success_line (m : QuectelModem) (l : str) : bool :=
  contains (qiopen_ok m) l || list_eqb l (lit "CONNECT").

(** The first line that ends the wait, if there is one. *)
Definition first_result_line (m : QuectelModem) (lines : list str)
  : option str :=
  find (is_result_line m) lines.

(** A line read from the port that says RDY. *)
Definition says_rdy (raw : bytes) : bool :=
  list_eqb (strip (decode_ignore raw)) (lit "RDY").

(** A line as [readline] returns it: bytes up to the first line feed. *)
Definition is_line (raw : bytes) : Prop :=
  exists body, raw = body ++ [10] /\ ~ In 10 body.

(** ** Well-behaved computations *)

(** [w'] comes after [w]: events were added to the trace, and bytes were
    taken from the front of the modem's stream. *)
Definition extends (w w' : World) : Prop :=
  (exists evs, trace w' = trace w ++ evs) /\
  (length (rx w') <= length (rx w))%nat.

(** A computation that ends within the fuel of its loops and only adds to
    the trace. *)
Definition tame {A} (c : M A) : Prop :=
  forall w,
    match c w with
    | Ret _ w' => extends w w'
    | Raise _ w' => extends w w'
    | Blocked w' => extends w w'
    | OutOfFuel => False
    end.

(** ** The threads and the wire *)

(** What the wire shows agrees with the threads: the exchanges in progress
    are those of the threads that are inside a call, each once. *)
Definition consistent (s : Threads.system) : Prop :=
  NoDup (Threads.in_progress (Threads.wire s)) /\
  forall tid,
    In tid (Threads.in_progress (Threads.wire s)) <->
    exists c todo,
      nth_error (Threads.threads s) tid = Some (Threads.Inside c todo).

(** ** More about the trace *)

(** One event per byte read one at a time. *)
Definition byte_reads (b : bytes) : list event :=
  map (fun x => SerRead [x]) b.

(** [got], added byte by byte to [line0], first ends in CR LF when all of it
    is there. *)
Definition first_line_end (line0 got : bytes) : Prop :=
  got <> [] /\
  endswith CRLF (line0 ++ got) = true /\
  forall k, (0 < k < length got)%nat ->
            endswith CRLF (line0 ++ firstn k got) = false.

(** [got], added byte by byte to [line0], never ends in CR LF. *)
Definition no_line_end (line0 got : bytes) : Prop :=
  forall k, (0 < k <= length got)%nat ->
            endswith CRLF (line0 ++ firstn k got) = false.

(** ** Relations kept by the program *)

(** [c] keeps [R]: the world it ends in is related to the world it started
    from, whichever way it ends. *)
Definition keeps (R : World -> World -> Prop) {A} (c : M A) : Prop :=
  forall w,
    match c w with
    | Ret _ w' => R w w'
    | Raise _ w' => R w w'
    | Blocked w' => R w w'
    | OutOfFuel => True
    end.

(** The client socket was not closed between [w] and [w']. *)
Definition still_open (w w' : World) : Prop :=
  exists evs, trace w' = trace w ++ evs /\ ~ In CliClose evs.

(** [handle_client] without its [finally]. *)
Definition handle_client_body (m : QuectelModem) (sel : list (bool * bool * nat))
  : M unit :=
  negotiate ;;;
  h <- read_request_header ;;
  serve_request m sel (fst h) (snd h).

(** ** The modem's notifications *)

(** The line by which the modem, in direct push mode, announces [n] bytes
    received on socket [sid], without its end of line; the end of line and
    the bytes follow it. *)
Definition recv_line (sid n : nat) : bytes :=
  lit "+QIURC: " ++ DQUOTE ++ lit "recv" ++ DQUOTE ++ lit "," ++
  str_of_int (Z.of_nat sid) ++ lit "," ++ str_of_int (Z.of_nat n).

Definition recv_header (sid n : nat) : bytes := recv_line sid n ++ CRLF.

(* ===================================================================== *)
(** * General facts *)
(* ===================================================================== *)

Lemma cli_sendall_eq :
  forall b w, cli_sendall b w = Ret tt (emit (CliSend b) w).
Proof.
  intros b w. unfold cli_sendall, cli_sendall_room.
  rewrite Nat.leb_refl. reflexivity.
Qed.

Lemma bind_ret_inv {A B} (c : M A) (k : A -> M B) w b w' :
  bind c k w = Ret b w' ->
  exists a w1, c w = Ret a w1 /\ k a w1 = Ret b w'.
Proof.
  unfold bind. destruct (c w) as [a w1| | |]; try discriminate.
  intros H. exists a, w1. split; [reflexivity | exact H].
Qed.

(** More fuel does not change what a loop that came to an end did. *)
Lemma loop_more_fuel {S R} (body : S -> M (S + R)) :
  forall f f' s w,
    (f <= f')%nat ->
    loop f body s w <> OutOfFuel ->
    loop f' body s w = loop f body s w.
Proof.
  induction f as [|f IH]; intros f' s w Hle Hne.
  - simpl in Hne. congruence.
  - destruct f' as [|f']; [lia|].
    simpl in *. unfold bind in *.
    destruct (body s w) as [[s'|v] w1| | |]; try reflexivity.
    apply IH; [lia | exact Hne].
Qed.

(** ** Chunks *)

Lemma skipn_chunk_shorter :
  forall (b : Z) (rest : bytes),
    (length (skipn MAX_CHUNK_SIZE (b :: rest)) < length (b :: rest))%nat.
Proof.
  intros b rest. rewrite length_skipn. unfold MAX_CHUNK_SIZE. simpl length. lia.
Qed.

Lemma chunks_nil : chunks [] = [].
Proof. apply chunks_equation_1. Qed.

Lemma chunks_step :
  forall data,
    data <> [] ->
    chunks data = firstn MAX_CHUNK_SIZE data :: chunks (skipn MAX_CHUNK_SIZE data).
Proof.
  intros [|b rest] Hne; [congruence|]. apply chunks_equation_2.
Qed.

(** Induction on a payload, one chunk at a time. *)
Lemma chunks_induction (P : bytes -> Prop) :
  P [] ->
  (forall data, data <> [] -> P (skipn MAX_CHUNK_SIZE data) -> P data) ->
  forall data, P data.
Proof.
  intros Hnil Hstep data.
  remember (length data) as n eqn:Hn.
  revert data Hn. induction n as [n IH] using lt_wf_ind. intros data Hn.
  destruct data as [|b rest]; [exact Hnil|].
  apply Hstep; [discriminate|].
  apply (IH (length (skipn MAX_CHUNK_SIZE (b :: rest)))); [|reflexivity].
  subst n. apply skipn_chunk_shorter.
Qed.

Lemma chunks_concat : forall data, List.concat (chunks data) = data.
Proof.
  apply chunks_induction.
  - rewrite chunks_nil. reflexivity.
  - intros data Hne IH. rewrite (chunks_step _ Hne).
    cbn [List.concat]. rewrite IH. apply firstn_skipn.
Qed.

Lemma chunks_bounds :
  forall data,
    Forall (fun c => (1 <= length c <= MAX_CHUNK_SIZE)%nat) (chunks data).
Proof.
  apply chunks_induction.
  - rewrite chunks_nil. constructor.
  - intros data Hne IH. rewrite (chunks_step _ Hne).
    constructor; [|exact IH].
    rewrite length_firstn. destruct data; [congruence|].
    unfold MAX_CHUNK_SIZE. simpl length. lia.
Qed.

Lemma chunks_small :
  forall data,
    data <> [] -> (length data <= MAX_CHUNK_SIZE)%nat -> chunks data = [data].
Proof.
  intros data Hne Hlen. rewrite (chunks_step _ Hne).
  rewrite firstn_all2 by exact Hlen.
  rewrite skipn_all2 by exact Hlen.
  rewrite chunks_nil. reflexivity.
Qed.

Lemma skipn_chunk_at :
  forall (data : bytes) offset,
    skipn (offset + length (chunk_at data offset)) data =
    skipn MAX_CHUNK_SIZE (skipn offset data).
Proof.
  intros data offset. unfold chunk_at.
  rewrite Nat.add_comm, <- skipn_skipn.
  rewrite length_firstn.
  destruct (Nat.le_gt_cases MAX_CHUNK_SIZE (length (skipn offset data))) as [H|H].
  - rewrite Nat.min_l by exact H. reflexivity.
  - rewrite Nat.min_r by lia.
    rewrite !skipn_all2; [reflexivity | lia | lia].
Qed.

Lemma send_chunks_loop :
  forall m data fuel offset w,
    (length data - offset < fuel)%nat ->
    loop fuel (send_chunks_turn m data) offset w
    = send_each m (chunks (skipn offset data)) w.
Proof.
  intros m data fuel. induction fuel as [|fuel IH]; intros offset w Hf; [lia|].
  cbn [loop]. unfold bind at 1, send_chunks_turn.
  destruct (Nat.ltb_spec offset (length data)) as [Hlt|Hge].
  - assert (Hne : skipn offset data <> []).
    { intros E. apply (f_equal (@List.length Z)) in E.
      rewrite length_skipn in E. simpl in E. lia. }
    rewrite (chunks_step _ Hne). cbn [send_each].
    fold (chunk_at data offset).
    cbv zeta. unfold bind at 1. unfold bind at 2.
    destruct (send_raw m (chunk_at data offset) w) as [[] w1| | |];
      try reflexivity.
    unfold ret at 1.
    rewrite IH.
    + rewrite skipn_chunk_at. reflexivity.
    + assert (1 <= length (chunk_at data offset))%nat.
      { unfold chunk_at. rewrite length_firstn, length_skipn.
        unfold MAX_CHUNK_SIZE. lia. }
      lia.
  - rewrite skipn_all2 by exact Hge. rewrite chunks_nil. reflexivity.
Qed.

(** C3. The client-to-modem path cuts a payload into chunks of at most
    [MAX_CHUNK_SIZE] bytes, none of them empty, which put end to end give the
    payload back; it issues exactly one [send_raw] per chunk, in the order of
    the bytes; and a payload that fits in one chunk is sent as that chunk. *)
Theorem send_chunks_splits_in_order :
  forall m data,
    List.concat (chunks data) = data /\
    Forall (fun c => (1 <= length c <= MAX_CHUNK_SIZE)%nat) (chunks data) /\
    (forall w, send_chunks m data w = send_each m (chunks data) w) /\
    (forall w,
       (1 <= length data <= MAX_CHUNK_SIZE)%nat ->
       send_chunks m data w = bind (send_raw m data) (fun _ => ret tt) w).
Proof.
  intros m data.
  assert (Hrun : forall w, send_chunks m data w = send_each m (chunks data) w).
  { intros w. unfold send_chunks. rewrite send_chunks_loop by lia.
    reflexivity. }
  repeat split.
  - apply chunks_concat.
  - apply chunks_bounds.
  - exact Hrun.
  - intros w [H1 H2]. rewrite Hrun.
    rewrite chunks_small; [reflexivity| |exact H2].
    intros E. subst data. simpl in H1. lia.
Qed.

Lemma send_chunks_splits_in_order_witness :
  send_chunks the_modem (lit "GET / HTTP/1.0") (fresh_world [] []) =
  bind (send_raw the_modem (lit "GET / HTTP/1.0")) (fun _ => ret tt)
       (fresh_world [] []).
Proof.
  apply (proj2 (proj2 (proj2
           (send_chunks_splits_in_order the_modem (lit "GET / HTTP/1.0"))))).
  unfold MAX_CHUNK_SIZE. simpl. lia.
Defined.
(** ** The serial port *)

Lemma arrived_pending : forall t r, arrived t r ++ pending t r = r.
Proof.
  intros t r. induction r as [|[a b] r IH]; [reflexivity|].
  simpl. destruct (a <=? t); [simpl; rewrite IH|]; reflexivity.
Qed.

Lemma arrived_length : forall t r, (length (arrived t r) <= length r)%nat.
Proof.
  intros t r. rewrite <- (arrived_pending t r) at 2.
  rewrite length_app. lia.
Qed.

Lemma arrival_ge : forall r t, t <= arrival t r.
Proof.
  induction r as [|[a b] r IH]; intros t; simpl; [lia|].
  specialize (IH (Z.max t a)). lia.
Qed.

(** Reading bytes that are all in the buffer takes no time. *)
Lemma arrival_arrived : forall r t, arrival t (arrived t r) = t.
Proof.
  induction r as [|[a b] r IH]; intros t; simpl; [reflexivity|].
  destruct (Z.leb_spec a t); simpl; [|reflexivity].
  rewrite Z.max_l by lia. apply IH.
Qed.

Lemma firstn_arrived :
  forall t r, firstn (length (arrived t r)) r = arrived t r.
Proof.
  intros t r. rewrite <- (arrived_pending t r) at 2.
  rewrite firstn_app, Nat.sub_diag, firstn_all. simpl. apply app_nil_r.
Qed.

(** What a read that returns has done. *)
Lemma ser_read_ret :
  forall n w b w',
    ser_read n w = Ret b w' ->
    (n <= length (rx w))%nat /\
    b = map snd (firstn n (rx w)) /\
    rx w' = skipn n (rx w) /\
    clock w' = arrival (clock w) (firstn n (rx w)) /\
    trace w' = trace w ++ [SerRead b] /\
    cin w' = cin w /\ cblocking w' = cblocking w.
Proof.
  intros n w b w'. unfold ser_read.
  destruct (Nat.ltb_spec (length (rx w)) n); [discriminate|].
  intros E. inversion E; subst. simpl. repeat split; try reflexivity. lia.
Qed.

(** A read that blocks has found too few bytes, and left the world as it
    was. *)
Lemma ser_read_blocked :
  forall n w w',
    ser_read n w = Blocked w' -> w' = w /\ (length (rx w) < n)%nat.
Proof.
  intros n w w'. unfold ser_read.
  destruct (Nat.ltb_spec (length (rx w)) n); [|discriminate].
  intros E. inversion E; subst. split; [reflexivity | assumption].
Qed.

Lemma ser_read_cases :
  forall n w,
    (exists b w', ser_read n w = Ret b w') \/ ser_read n w = Blocked w.
Proof.
  intros n w. unfold ser_read.
  destruct (length (rx w) <? n)%nat; [right | left; eexists; eexists]; reflexivity.
Qed.

(** The bytes read are the first of the stream. *)
Lemma ser_read_stream :
  forall n w b w',
    ser_read n w = Ret b w' ->
    map snd (rx w) = b ++ map snd (rx w') /\ length b = n.
Proof.
  intros n w b w' H. apply ser_read_ret in H.
  destruct H as (Hn & Hb & Hrx & _). subst b. rewrite Hrx.
  rewrite <- map_app, firstn_skipn. split; [reflexivity|].
  rewrite length_map, length_firstn. lia.
Qed.

(** ** [_send_at] *)

(** The loop of [_send_at]: it reads on from the stream, and ends with a
    terminal token in the response, or past its deadline, or blocked on a
    stream that has run dry. *)
Lemma send_at_loop_spec :
  forall deadline fuel resp0 w,
    (length (rx w) < fuel)%nat ->
    match loop fuel (send_at_turn deadline) resp0 w with
    | Ret resp w' =>
      exists reads,
        trace w' = trace w ++ map SerRead reads /\
        map snd (rx w) = List.concat reads ++ map snd (rx w') /\
        resp = resp0 ++ List.concat (map decode_ignore reads) /\
        clock w <= clock w' /\ cin w' = cin w /\ cblocking w' = cblocking w /\
        (has_terminal resp = true \/ deadline <= clock w')
    | Blocked w' =>
      exists reads,
        trace w' = trace w ++ map SerRead reads /\
        map snd (rx w) = List.concat reads /\
        rx w' = [] /\ clock w' < deadline /\
        cin w' = cin w /\ cblocking w' = cblocking w
    | Raise _ _ => False
    | OutOfFuel => False
    end.
Proof.
  intros deadline fuel. induction fuel as [|fuel IH]; intros resp0 w Hf; [lia|].
  cbn [loop]. unfold bind at 1. unfold send_at_turn at 1.
  unfold bind at 1, now at 1.
  destruct (Z.ltb_spec (clock w) deadline) as [Hlt|Hge].
  2:{ unfold ret. exists []. simpl. rewrite !app_nil_r.
      repeat split; try reflexivity; try lia. }
  unfold bind at 1, in_waiting at 1. unfold bind at 1.
  set (k := match length (arrived (clock w) (rx w)) with
            | O => 1%nat | S _ => length (arrived (clock w) (rx w)) end).
  destruct (ser_read_cases k w) as [(b & w1 & Hr)|Hb].
  - rewrite Hr.
    pose proof (ser_read_ret _ _ _ _ Hr) as (Hk & _ & Hrx & Hclk & Htr & Hcin & Hcb).
    pose proof (ser_read_stream _ _ _ _ Hr) as (Hst & Hlen).
    assert (Hk1 : (1 <= k)%nat) by (unfold k; destruct (length (arrived (clock w) (rx w))); lia).
    assert (Hfuel : (length (rx w1) < fuel)%nat).
    { rewrite Hrx, length_skipn. lia. }
    assert (Hmono : clock w <= clock w1) by (rewrite Hclk; apply arrival_ge).
    destruct (decode_ignore b) as [|c part] eqn:Hdec.
    + unfold ret at 1. specialize (IH resp0 w1 Hfuel).
      destruct (loop fuel (send_at_turn deadline) resp0 w1) as [resp w'| | |]; try exact IH.
      * destruct IH as (reads & H1 & H2 & H3 & H4 & H5 & H6 & H7).
        exists (b :: reads). cbn [map List.concat]. rewrite Hdec. cbn [app].
        rewrite H1, Htr, Hst, H2, <- !app_assoc. cbn [app].
        repeat split; try assumption; try congruence; lia.
      * destruct IH as (reads & H1 & H2 & H3 & H4 & H5 & H6).
        exists (b :: reads). cbn [map List.concat].
        rewrite H1, Htr, Hst, H2, <- !app_assoc. cbn [app].
        repeat split; try assumption; try congruence.
    + cbv zeta.
      destruct (has_terminal (resp0 ++ c :: part)) eqn:Hterm.
      * unfold ret. exists [b]. cbn [map List.concat]. rewrite Hdec, !app_nil_r.
        repeat split; try assumption. left. exact Hterm.
      * unfold ret at 1. specialize (IH (resp0 ++ c :: part) w1 Hfuel).
        destruct (loop fuel (send_at_turn deadline) (resp0 ++ c :: part) w1) as [resp w'| | |]; try exact IH.
        -- destruct IH as (reads & H1 & H2 & H3 & H4 & H5 & H6 & H7).
           exists (b :: reads). cbn [map List.concat]. rewrite Hdec.
           repeat split; try assumption; try congruence; try lia.
           ++ rewrite H1, Htr, <- !app_assoc. reflexivity.
           ++ rewrite Hst, H2, <- !app_assoc. reflexivity.
           ++ rewrite H3, <- !app_assoc. reflexivity.
        -- destruct IH as (reads & H1 & H2 & H3 & H4 & H5 & H6).
           exists (b :: reads). cbn [map List.concat].
           rewrite H1, Htr, Hst, H2, <- !app_assoc. cbn [app].
           repeat split; try assumption; try congruence.
  - rewrite Hb. exists []. simpl. rewrite app_nil_r.
    apply ser_read_blocked in Hb. destruct Hb as [_ Hb].
    assert (Hrx : rx w = []).
    { unfold k in Hb. pose proof (arrived_length (clock w) (rx w)) as Ha.
      destruct (length (arrived (clock w) (rx w))) as [|n].
      - destruct (rx w); [reflexivity | simpl in Hb; lia].
      - lia. }
    rewrite Hrx. repeat split; try reflexivity. exact Hlt.
Qed.

(** [_send_at] as a whole: the buffer is emptied, the command is written,
    and the response is what is read from then on. *)
Lemma send_at_spec :
  forall cmd timeout w,
    let junk := map snd (arrived (clock w) (rx w)) in
    match _send_at cmd timeout w with
    | Ret resp w' =>
      exists out reads,
        encode (cmd ++ CR) = Some out /\
        trace w' = trace w ++ SerReset junk :: SerWrite out :: map SerRead reads /\
        map snd (rx w) = junk ++ List.concat reads ++ map snd (rx w') /\
        resp = List.concat (map decode_ignore reads) /\
        clock w <= clock w' /\ cin w' = cin w /\ cblocking w' = cblocking w /\
        (has_terminal resp = true \/ clock w + timeout <= clock w')
    | Blocked w' =>
      exists out reads,
        encode (cmd ++ CR) = Some out /\
        trace w' = trace w ++ SerReset junk :: SerWrite out :: map SerRead reads /\
        map snd (rx w) = junk ++ List.concat reads /\
        rx w' = [] /\ clock w' < clock w + timeout /\
        cin w' = cin w /\ cblocking w' = cblocking w
    | Raise e w' =>
      e = UnicodeEncodeError /\ encode (cmd ++ CR) = None /\
      trace w' = trace w ++ [SerReset junk] /\
      cin w' = cin w /\ cblocking w' = cblocking w
    | OutOfFuel => False
    end.
Proof.
  intros cmd timeout w junk.
  unfold _send_at. unfold bind at 1, reset_input_buffer at 1.
  unfold bind at 1, encode_or_raise at 1.
  destruct (encode (cmd ++ CR)) as [out|] eqn:Henc; cbn [or_raise].
  2:{ unfold raise. simpl. repeat split; reflexivity. }
  unfold ret at 1. unfold bind at 1, ser_write at 1.
  unfold bind at 1, now at 1. cbv zeta.
  set (w1 := emit (SerWrite out) (emit (SerReset junk) (set_rx (pending (clock w) (rx w)) w))).
  change (emit (SerWrite out) (emit (SerReset (map snd (arrived (clock w) (rx w))))
            (set_rx (pending (clock w) (rx w)) w))) with w1.
  assert (Hrx1 : rx w1 = pending (clock w) (rx w)) by reflexivity.
  assert (Hclk1 : clock w1 = clock w) by reflexivity.
  assert (Htr1 : trace w1 = (trace w ++ [SerReset junk]) ++ [SerWrite out]) by reflexivity.
  assert (Hsplit : map snd (rx w) = junk ++ map snd (rx w1)).
  { unfold junk. rewrite Hrx1, <- map_app, arrived_pending. reflexivity. }
  pose proof (send_at_loop_spec (clock w1 + timeout) (rx_fuel w1) [] w1) as L.
  unfold rx_fuel in L at 1. specialize (L (Nat.lt_succ_diag_r _)).
  destruct (loop (rx_fuel w1) (send_at_turn (clock w1 + timeout)) [] w1)
    as [resp w'| | |]; try contradiction.
  - destruct L as (reads & H1 & H2 & H3 & H4 & H5 & H6 & H7).
    exists out, reads. rewrite Hclk1 in *.
    repeat split; try assumption.
    + rewrite H1, Htr1, <- !app_assoc. reflexivity.
    + rewrite Hsplit, H2. reflexivity.
  - destruct L as (reads & H1 & H2 & H3 & H4 & H5 & H6).
    exists out, reads. rewrite Hclk1 in *.
    repeat split; try assumption.
    + rewrite H1, Htr1, <- !app_assoc. reflexivity.
    + rewrite Hsplit, H2. reflexivity.
Qed.

(** C10. Every call of [_send_at] first empties the input buffer, and only
    then writes the command: the bytes that had been received and not read
    when the call was made are thrown away, whatever they are.  They are not
    part of the response, and they are no longer in the stream afterwards:
    the stream was these bytes, then what the call read, then what is left. *)
Theorem send_at_discards_unread_input :
  forall cmd timeout w,
    let junk := map snd (arrived (clock w) (rx w)) in
    match _send_at cmd timeout w with
    | Ret resp w' =>
      exists out reads,
        trace w' = trace w ++ SerReset junk :: SerWrite out :: map SerRead reads /\
        map snd (rx w) = junk ++ List.concat reads ++ map snd (rx w') /\
        resp = List.concat (map decode_ignore reads)
    | Blocked w' =>
      exists out reads,
        trace w' = trace w ++ SerReset junk :: SerWrite out :: map SerRead reads /\
        map snd (rx w) = junk ++ List.concat reads ++ map snd (rx w')
    | Raise e w' => trace w' = trace w ++ [SerReset junk]
    | OutOfFuel => False
    end.
Proof.
  intros cmd timeout w junk.
  pose proof (send_at_spec cmd timeout w) as H. cbv zeta in H. fold junk in H.
  destruct (_send_at cmd timeout w) as [resp w'|e w'|w'|].
  - destruct H as (out & reads & _ & H1 & H2 & H3 & _).
    exists out, reads. repeat split; assumption.
  - destruct H as (_ & _ & H & _). exact H.
  - destruct H as (out & reads & _ & H1 & H2 & H3 & _).
    exists out, reads. split; [exact H1|].
    rewrite H2, H3. simpl. rewrite app_nil_r. reflexivity.
  - exact H.
Qed.

(** A notification of received data that is waiting in the buffer when a
    command is sent is lost: its header and its payload are thrown away. *)
Example send_at_loses_pending_notification :
  let urc := lit "+QIURC: " ++ DQUOTE ++ lit "recv" ++ DQUOTE ++ lit ",0,2"
             ++ CRLF ++ lit "hi" in
  let w := fresh_world (modem_says 0 urc ++ modem_says 5 (CRLF ++ lit "OK" ++ CRLF)) [] in
  exists w',
    _send_at (lit "AT+QICLOSE=0,10") 2000 w = Ret (CRLF ++ lit "OK" ++ CRLF) w' /\
    trace w' = [SerReset urc; SerWrite (lit "AT+QICLOSE=0,10" ++ CR);
                SerRead [13]; SerRead ([10] ++ lit "OK" ++ CRLF)] /\
    rx w' = [].
Proof.
  eexists. split; [vm_compute; reflexivity|]. split; reflexivity.
Qed.



(** ** ASCII text *)

Lemma encode_ascii :
  forall s, forallb is_ascii s = true -> encode s = Some s.
Proof.
  induction s as [|c s IH]; intros H; [reflexivity|].
  simpl in H. apply andb_prop in H. destruct H as [Hc Hs].
  cbn [encode]. rewrite (IH Hs).
  unfold is_ascii in Hc. apply andb_prop in Hc. destruct Hc as [H0 H1].
  apply Z.leb_le in H0. apply Z.ltb_lt in H1.
  unfold encode_cp.
  destruct (Z.ltb_spec c 0); [lia|].
  destruct (Z.ltb_spec c 128); [reflexivity | lia].
Qed.

Lemma uint_ascii :
  forall u, forallb is_ascii (lit (NilEmpty.string_of_uint u)) = true.
Proof.
  induction u; simpl; try reflexivity; exact IHu.
Qed.

Lemma str_of_int_ascii : forall n, forallb is_ascii (str_of_int n) = true.
Proof.
  intros n. unfold str_of_int, NilZero.string_of_int, NilZero.string_of_uint.
  destruct (Z.to_int n) as [u|u].
  - destruct u; try reflexivity; apply uint_ascii.
  - destruct u; try reflexivity;
      match goal with
      | |- forallb is_ascii (lit (String _ (NilEmpty.string_of_uint ?d))) = true =>
        exact (uint_ascii d)
      end.
Qed.

Lemma qisend_cmd_encodes :
  forall m n, encode (qisend_cmd m n) = Some (qisend_cmd m n).
Proof.
  intros m n. apply encode_ascii. unfold qisend_cmd.
  rewrite !forallb_app, !str_of_int_ascii. reflexivity.
Qed.

(** ** [send_raw] *)

(** C5: where the program departs from it.  When the modem sends nothing
    after the command, [send_raw] never gets to its deadline: the read of one
    byte has no timeout of its own, and blocks for ever.  No [TimeoutError]
    is raised; the payload is not written. *)
Theorem send_raw_blocks_on_silent_modem :
  forall m data w,
    rx w = [] ->
    send_raw m data w =
    Blocked (emit (SerWrite (qisend_cmd m (length data))) w).
Proof.
  intros m data w Hrx.
  unfold send_raw. unfold bind at 1, encode_or_raise.
  rewrite qisend_cmd_encodes. cbn [or_raise]. unfold ret at 1.
  unfold bind at 1, ser_write at 1.
  unfold bind at 1, _wait_for_prompt.
  unfold bind at 1, now at 1. cbv zeta.
  unfold rx_fuel. cbn [emit rx]. rewrite Hrx. cbn [length loop].
  unfold bind at 1, wait_for_prompt_turn at 1.
  unfold bind at 1, now at 1. cbn [clock emit].
  unfold PROMPT_TIMEOUT.
  destruct (Z.ltb_spec (clock w) (clock w + 5000)); [|lia].
  unfold bind at 1, ser_read. cbn [rx emit]. rewrite Hrx. reflexivity.
Qed.

Lemma send_raw_blocks_on_silent_modem_witness :
  send_raw the_modem (lit "GET / HTTP/1.0") (fresh_world [] []) =
  Blocked (emit (SerWrite (lit "AT+QISEND=0,14" ++ CR)) (fresh_world [] [])).
Proof.
  apply (send_raw_blocks_on_silent_modem the_modem (lit "GET / HTTP/1.0")
           (fresh_world [] [])).
  reflexivity.
Defined.

(** ** [open_tcp_direct_push] *)

Lemma startswith_app_l :
  forall p q s, startswith (p ++ q) s = true -> startswith p s = true.
Proof.
  induction p as [|x p IH]; intros q s H; [reflexivity|].
  destruct s as [|y s]; [discriminate|].
  simpl in *. apply andb_prop in H. destruct H as [H1 H2].
  rewrite H1. simpl. exact (IH _ _ H2).
Qed.

Lemma contains_app_l :
  forall p q s, contains (p ++ q) s = true -> contains p s = true.
Proof.
  intros p q. induction s as [|y s IH]; intros H.
  - simpl in *. rewrite orb_false_r in *. exact (startswith_app_l _ _ _ H).
  - cbn [contains] in *. apply orb_prop in H. destruct H as [H|H].
    + rewrite (startswith_app_l _ _ _ H). reflexivity.
    + rewrite (IH H). apply orb_true_r.
Qed.

Lemma qiopen_ok_any : forall m, qiopen_ok m = qiopen_any m ++ lit "0".
Proof.
  intros m. unfold qiopen_ok, qiopen_any. rewrite <- !app_assoc. reflexivity.
Qed.

(** The [for] loop over the lines returns what the first result line says. *)
Lemma scan_open_lines_first :
  forall m lines,
    scan_open_lines m lines =
    option_map (is_success_line m) (first_result_line m lines).
Proof.
  intros m. induction lines as [|l lines IH]; [reflexivity|].
  cbn [scan_open_lines first_result_line find].
  unfold is_result_line at 1. unfold is_success_line at 1.
  destruct (contains (qiopen_ok m) l) eqn:Hok.
  - rewrite qiopen_ok_any in Hok. rewrite (contains_app_l _ _ _ Hok).
    cbn [orb option_map]. unfold is_success_line.
    rewrite qiopen_ok_any. rewrite Hok. reflexivity.
  - cbn [orb]. destruct (list_eqb l (lit "CONNECT")) eqn:Hc.
    + rewrite orb_true_r. cbn [option_map]. unfold is_success_line.
      rewrite Hok, Hc. reflexivity.
    + rewrite orb_false_r.
      destruct (contains (qiopen_any m) l) eqn:Hany.
      * cbn [option_map]. unfold is_success_line. rewrite Hok, Hc. reflexivity.
      * exact IH.
Qed.

(** The polling loop never blocks: it reads only what is in the buffer. It
    returns with the first result line, or when the deadline is over. *)
Lemma open_poll_loop_spec :
  forall m deadline fuel buf0 w,
    deadline - clock w <= 100 * (Z.of_nat fuel - 1) ->
    (1 <= fuel)%nat ->
    scan_open_lines m (splitlines buf0) = None ->
    exists b w' reads,
      loop fuel (open_poll_turn m deadline) buf0 w = Ret b w' /\
      trace w' = trace w ++ map SerRead reads /\
      map snd (rx w) = List.concat reads ++ map snd (rx w') /\
      cin w' = cin w /\ cblocking w' = cblocking w /\
      clock w <= clock w' /\
      (clock w' < deadline + 100 \/ clock w' = clock w) /\
      match scan_open_lines m
              (splitlines (buf0 ++ List.concat (map decode_ignore reads))) with
      | Some v => b = v /\ clock w' < deadline
      | None => b = false /\ deadline <= clock w'
      end.
Proof.
  intros m deadline fuel.
  induction fuel as [|fuel IH]; intros buf0 w Hf H1 Hscan; [lia|].
  cbn [loop]. unfold bind at 1. unfold open_poll_turn at 1.
  unfold bind at 1, now at 1.
  destruct (Z.ltb_spec (clock w) deadline) as [Hlt|Hge].
  2:{ exists false, w, []. cbn [map List.concat]. rewrite !app_nil_r, Hscan.
      unfold ret. repeat split; try reflexivity; try lia. }
  assert (Hfuel : (1 <= fuel)%nat) by lia.
  unfold bind at 1, in_waiting at 1.
  destruct (length (arrived (clock w) (rx w))) as [|n] eqn:Hn.
  - (* nothing in the buffer: sleep *)
    unfold bind at 1, sleep at 1. unfold ret at 1.
    destruct (IH buf0 (set_clock (clock w + 100) w)) as
        (b & w' & reads & E & T & R & C1 & C2 & K1 & K2 & S); try assumption.
    { cbn [clock set_clock]. lia. }
    exists b, w', reads. cbn [clock set_clock rx trace cin cblocking] in *.
    repeat split; try assumption; try lia.
  - (* read all there is *)
    unfold bind at 1.
    destruct (ser_read_cases (S n) w) as [(raw & w1 & Hr)|Hb].
    2:{ apply ser_read_blocked in Hb. destruct Hb as [_ Hb].
        pose proof (arrived_length (clock w) (rx w)). lia. }
    rewrite Hr.
    pose proof (ser_read_ret _ _ _ _ Hr) as (_ & _ & Hrx & Hclk & Htr & Hcin & Hcb).
    pose proof (ser_read_stream _ _ _ _ Hr) as (Hst & _).
    assert (Hclk1 : clock w1 = clock w).
    { rewrite Hclk, <- Hn, firstn_arrived. apply arrival_arrived. }
    cbv zeta.
    destruct (scan_open_lines m (splitlines (buf0 ++ decode_ignore raw)))
      as [v|] eqn:Hscan1.
    + exists v, w1, [raw]. cbn [map List.concat]. rewrite !app_nil_r, Hscan1.
      unfold ret. repeat split; try assumption; try lia.
    + unfold bind at 1, sleep at 1. unfold ret at 1.
      destruct (IH (buf0 ++ decode_ignore raw) (set_clock (clock w1 + 100) w1)) as
          (b & w' & reads & E & T & R & C1 & C2 & K1 & K2 & S); try assumption.
      { cbn [clock set_clock]. lia. }
      exists b, w', (raw :: reads).
      cbn [clock set_clock rx trace cin cblocking] in *.
      cbn [map List.concat].
      repeat split; try congruence; try lia.
      * rewrite T, Htr, <- app_assoc. reflexivity.
      * rewrite Hst, R, <- app_assoc. reflexivity.
      * rewrite app_assoc. exact S.
Qed.

Lemma open_poll_spec :
  forall m w,
    exists b w' reads,
      open_poll m w = Ret b w' /\
      trace w' = trace w ++ map SerRead reads /\
      map snd (rx w) = List.concat reads ++ map snd (rx w') /\
      cin w' = cin w /\ cblocking w' = cblocking w /\
      clock w <= clock w' < clock w + 10100 /\
      match first_result_line m
              (splitlines (List.concat (map decode_ignore reads))) with
      | Some l => b = is_success_line m l /\ clock w' < clock w + 10000
      | None => b = false /\ clock w + 10000 <= clock w'
      end.
Proof.
  intros m w. unfold open_poll. unfold bind at 1, now at 1. cbv zeta.
  destruct (open_poll_loop_spec m (clock w + 10000) 101 [] w)
    as (b & w' & reads & E & T & R & C1 & C2 & K1 & K2 & S);
    try reflexivity; try lia.
  exists b, w', reads. rewrite E.
  repeat split; try assumption; try lia.
  cbn [app] in S. rewrite scan_open_lines_first in S.
  destruct (first_result_line m _) as [l|]; cbn [option_map] in S; exact S.
Qed.

(** C4, as stated, fails: after the command is acknowledged the modem sends
    the line CONNECT and no result line at all, and the open is a success. *)
Lemma open_succeeds_on_connect_line :
  let w := fresh_world (modem_says 5 (CRLF ++ lit "OK" ++ CRLF) ++
                        modem_says 300 (CRLF ++ lit "CONNECT" ++ CRLF)) [] in
  exists w',
    open_tcp_direct_push the_modem (lit "93.184.216.34") 80 w = Ret true w' /\
    contains (lit "+QIOPEN") (consumed (trace w')) = false.
Proof.
  eexists. split; vm_compute; reflexivity.
Qed.

(** C4, amended.  Once the command exchange is over, the open polls the
    port for ten seconds, and looks at the lines of the text read so far.
    The first line that holds the result of the open for this socket
    ([+QIOPEN: <id>,]) or is exactly CONNECT decides: success exactly when it
    holds [+QIOPEN: <id>,0] or is CONNECT, failure otherwise.  Without such a
    line the open fails when the ten seconds are over.  The open itself
    raises no error and does not block; only the command exchange before it
    can. *)
Theorem open_decided_by_first_result_line :
  forall m host port w,
    match open_tcp_direct_push m host port w with
    | Ret b w' =>
      exists resp w1 reads,
        _send_at (qiopen_cmd m host port) 2000 w = Ret resp w1 /\
        trace w' = trace w1 ++ map SerRead reads /\
        match first_result_line m
                (splitlines (List.concat (map decode_ignore reads))) with
        | Some l => b = is_success_line m l /\ clock w' < clock w1 + 10000
        | None => b = false /\ clock w1 + 10000 <= clock w' < clock w1 + 10100
        end
    | Raise e w' => _send_at (qiopen_cmd m host port) 2000 w = Raise e w'
    | Blocked w' => _send_at (qiopen_cmd m host port) 2000 w = Blocked w'
    | OutOfFuel => False
    end.
Proof.
  intros m host port w. unfold open_tcp_direct_push. unfold bind at 1.
  pose proof (send_at_spec (qiopen_cmd m host port) 2000 w) as Hs.
  destruct (_send_at (qiopen_cmd m host port) 2000 w) as [resp w1|e w1|w1|];
    try reflexivity; try exact Hs.
  destruct (open_poll_spec m w1) as (b & w' & reads & E & T & _ & _ & _ & K & S).
  rewrite E. exists resp, w1, reads.
  repeat split; try assumption.
  destruct (first_result_line m _) as [l|].
  - exact S.
  - destruct S as [S1 S2]. repeat split; try assumption; lia.
Qed.

(** ** [_wait_for_rdy] *)

Lemma line_length_some :
  forall r n,
    line_length r = Some n ->
    (1 <= n <= length r)%nat /\ is_line (map snd (firstn n r)).
Proof.
  induction r as [|[t b] r IH]; intros n H; [discriminate|].
  cbn [line_length] in H.
  destruct (Z.eqb_spec b 10) as [Hb|Hb].
  - inversion H; subst. simpl. split; [lia|].
    exists []. split; [reflexivity | intros []].
  - destruct (line_length r) as [k|] eqn:Hk; [|discriminate].
    inversion H; subst. destruct (IH k eq_refl) as [Hle (body & E & Hin)].
    split; [simpl; lia|].
    exists (b :: body). cbn [firstn map snd]. rewrite E. split; [reflexivity|].
    intros [H1|H1]; [congruence | exact (Hin H1)].
Qed.

Lemma line_length_none :
  forall r, line_length r = None -> ~ In 10 (map snd r).
Proof.
  induction r as [|[t b] r IH]; intros H; [intros []|].
  cbn [line_length] in H.
  destruct (Z.eqb_spec b 10) as [Hb|Hb]; [discriminate|].
  destruct (line_length r); [discriminate|].
  intros [H1|H1]; [simpl in H1; congruence | exact (IH eq_refl H1)].
Qed.

(** What [readline] does: it returns a line, or blocks on a stream that has
    no line feed left. *)
Lemma ser_readline_spec :
  forall w,
    match ser_readline w with
    | Ret raw w' =>
      is_line raw /\ raw <> [] /\
      map snd (rx w) = raw ++ map snd (rx w') /\
      (length (rx w') < length (rx w))%nat /\
      trace w' = trace w ++ [SerRead raw] /\
      clock w <= clock w' /\ cin w' = cin w /\ cblocking w' = cblocking w
    | Blocked w' => w' = w /\ ~ In 10 (map snd (rx w))
    | Raise _ _ => False
    | OutOfFuel => False
    end.
Proof.
  intros w. unfold ser_readline.
  destruct (line_length (rx w)) as [n|] eqn:Hn.
  - destruct (line_length_some _ _ Hn) as [Hle Hline].
    destruct (ser_read_cases n w) as [(raw & w1 & Hr)|Hb].
    + rewrite Hr.
      pose proof (ser_read_ret _ _ _ _ Hr) as (_ & Hraw & Hrx & Hclk & Htr & Hcin & Hcb).
      pose proof (ser_read_stream _ _ _ _ Hr) as (Hst & Hlen).
      repeat split; try assumption.
      * rewrite Hraw. exact Hline.
      * intros E. rewrite E in Hlen. simpl in Hlen. lia.
      * rewrite Hrx, length_skipn. lia.
      * rewrite Hclk. apply arrival_ge.
    + apply ser_read_blocked in Hb. lia.
  - split; [reflexivity | exact (line_length_none _ Hn)].
Qed.

(** The wait for the banner reads line after line.  It returns on the first
    line that says RDY, and blocks when the stream has no such line. *)
Lemma wait_for_rdy_loop_spec :
  forall fuel w,
    (length (rx w) < fuel)%nat ->
    match loop fuel wait_for_rdy_turn tt w with
    | Ret _ w' =>
      exists lines raw,
        trace w' = trace w ++ map SerRead (lines ++ [raw]) /\
        map snd (rx w) = List.concat lines ++ raw ++ map snd (rx w') /\
        Forall is_line (lines ++ [raw]) /\
        Forall (fun l => says_rdy l = false) lines /\
        says_rdy raw = true
    | Blocked w' =>
      exists lines,
        trace w' = trace w ++ map SerRead lines /\
        map snd (rx w) = List.concat lines ++ map snd (rx w') /\
        Forall is_line lines /\
        Forall (fun l => says_rdy l = false) lines /\
        ~ In 10 (map snd (rx w'))
    | Raise _ _ => False
    | OutOfFuel => False
    end.
Proof.
  induction fuel as [|fuel IH]; intros w Hf; [lia|].
  cbn [loop]. unfold bind at 1. unfold wait_for_rdy_turn at 1.
  unfold bind at 1.
  pose proof (ser_readline_spec w) as Hl.
  destruct (ser_readline w) as [raw w1|e w1|w1|]; try contradiction.
  - destruct Hl as (Hline & _ & Hst & Hlen & Htr & _).
    fold (says_rdy raw).
    destruct (says_rdy raw) eqn:Hrdy.
    + unfold ret. exists [], raw. cbn [app map List.concat].
      repeat split; try assumption.
      * constructor; [exact Hline | constructor].
      * constructor.
    + unfold ret at 1.
      assert (Hf1 : (length (rx w1) < fuel)%nat) by lia.
      specialize (IH w1 Hf1).
      destruct (loop fuel wait_for_rdy_turn tt w1) as [[] w'|e w'|w'|];
        try contradiction.
      * destruct IH as (lines & raw' & T & R & L & N & Y).
        exists (raw :: lines), raw'. cbn [app map List.concat].
        repeat split; try assumption.
        -- rewrite T, Htr, <- app_assoc. reflexivity.
        -- rewrite Hst, R, <- app_assoc. reflexivity.
        -- constructor; assumption.
        -- constructor; assumption.
      * destruct IH as (lines & T & R & L & N & Y).
        exists (raw :: lines). cbn [app map List.concat].
        repeat split; try assumption.
        -- rewrite T, Htr, <- app_assoc. reflexivity.
        -- rewrite Hst, R, <- app_assoc. reflexivity.
        -- constructor; assumption.
        -- constructor; assumption.
  - destruct Hl as [-> Hno]. exists []. cbn [app map List.concat].
    rewrite app_nil_r. repeat split; try constructor. exact Hno.
Qed.



(** ** The relay loop, modem to client *)

Lemma line_length_app :
  forall hdr tail,
    line_length hdr = Some (length hdr) ->
    line_length (hdr ++ tail) = Some (length hdr).
Proof.
  induction hdr as [|[t b] hdr IH]; intros tail H; [discriminate|].
  cbn [line_length app] in *.
  destruct (b =? 10).
  - inversion H as [H1]. destruct hdr; [reflexivity | discriminate].
  - destruct (line_length hdr) as [k|] eqn:Hk; [|discriminate].
    cbn [option_map] in H. inversion H as [H1].
    cbn [length] in H1. subst k.
    rewrite (IH tail eq_refl). reflexivity.
Qed.

Lemma ser_read_app :
  forall w hdr tail,
    rx w = hdr ++ tail ->
    exists w',
      ser_read (length hdr) w = Ret (map snd hdr) w' /\
      rx w' = tail /\ trace w' = trace w ++ [SerRead (map snd hdr)] /\
      cin w' = cin w /\ cblocking w' = cblocking w.
Proof.
  intros w hdr tail Hrx. unfold ser_read. rewrite Hrx.
  destruct (Nat.ltb_spec (length (hdr ++ tail)) (length hdr)) as [H|H].
  - rewrite length_app in H. lia.
  - rewrite firstn_app, Nat.sub_diag, firstn_all, skipn_app, Nat.sub_diag,
      skipn_all. cbn [firstn skipn app]. rewrite app_nil_r.
    eexists. split; [reflexivity|]. repeat split; reflexivity.
Qed.




(** ** No function of the program runs out of fuel *)

Lemma extends_refl : forall w, extends w w.
Proof.
  intros w. split; [exists []; rewrite app_nil_r; reflexivity | lia].
Qed.

Lemma extends_trans :
  forall w1 w2 w3, extends w1 w2 -> extends w2 w3 -> extends w1 w3.
Proof.
  intros w1 w2 w3 [[e1 H1] L1] [[e2 H2] L2]. split; [|lia].
  exists (e1 ++ e2). rewrite H2, H1, app_assoc. reflexivity.
Qed.

Lemma extends_emit : forall e w, extends w (emit e w).
Proof.
  intros e w. split; [exists [e]; reflexivity | simpl; lia].
Qed.

Lemma tame_ret : forall A (a : A), tame (ret a).
Proof. intros A a w. apply extends_refl. Qed.

Lemma tame_raise : forall A e, tame (@raise A e).
Proof. intros A e w. apply extends_refl. Qed.

Lemma tame_bind :
  forall A B (c : M A) (k : A -> M B),
    tame c -> (forall a, tame (k a)) -> tame (bind c k).
Proof.
  intros A B c k Hc Hk w. unfold bind.
  specialize (Hc w). destruct (c w) as [a w1|e w1|w1|]; try exact Hc.
  specialize (Hk a w1).
  destruct (k a w1) as [b w2|e w2|w2|]; try exact Hk;
    eapply extends_trans; eassumption.
Qed.

Lemma tame_try_finally :
  forall A (body : M A) (fin : M unit),
    tame body -> tame fin -> tame (try_finally body fin).
Proof.
  intros A body fin Hb Hf w. unfold try_finally.
  specialize (Hb w). destruct (body w) as [a w1|e w1|w1|]; try exact Hb.
  - pose proof (tame_bind _ _ fin (fun _ => ret a) Hf (fun _ => tame_ret _ a) w1) as H.
    destruct (bind fin (fun _ => ret a) w1); try exact H;
      eapply extends_trans; eassumption.
  - pose proof (tame_bind _ _ fin (fun _ => @raise A e) Hf (fun _ => tame_raise A e) w1) as H.
    destruct (bind fin (fun _ => raise e) w1); try exact H;
      eapply extends_trans; eassumption.
Qed.

Lemma tame_or_raise : forall A e (o : option A), tame (or_raise e o).
Proof. intros A e [a|]; [apply tame_ret | apply tame_raise]. Qed.

Lemma tame_now : tame now.
Proof. intros w. apply extends_refl. Qed.

Lemma tame_sleep : forall d, tame (sleep d).
Proof. intros d w. split; [exists []; simpl; rewrite app_nil_r; reflexivity | simpl; lia]. Qed.

Lemma tame_in_waiting : tame in_waiting.
Proof. intros w. apply extends_refl. Qed.

Lemma pending_length : forall t r, (length (pending t r) <= length r)%nat.
Proof.
  intros t r. rewrite <- (arrived_pending t r) at 2. rewrite length_app. lia.
Qed.

Lemma tame_reset_input_buffer : tame reset_input_buffer.
Proof.
  intros w. split; [eexists; reflexivity|]. simpl. apply pending_length.
Qed.

Lemma tame_ser_write : forall b, tame (ser_write b).
Proof. intros b w. apply extends_emit. Qed.

Lemma ser_read_length :
  forall n w b w',
    ser_read n w = Ret b w' -> (length (rx w') + n = length (rx w))%nat.
Proof.
  intros n w b w' H. apply ser_read_ret in H.
  destruct H as (Hn & _ & Hrx & _). rewrite Hrx, length_skipn. lia.
Qed.

Lemma tame_ser_read : forall n, tame (ser_read n).
Proof.
  intros n w. destruct (ser_read_cases n w) as [(b & w' & H)|H]; rewrite H.
  - pose proof (ser_read_ret _ _ _ _ H) as (_ & _ & _ & _ & Htr & _).
    pose proof (ser_read_length _ _ _ _ H).
    split; [eexists; exact Htr | lia].
  - apply extends_refl.
Qed.

Lemma tame_ser_readline : tame ser_readline.
Proof.
  intros w. unfold ser_readline.
  destruct (line_length (rx w)); [apply tame_ser_read | apply extends_refl].
Qed.

Lemma tame_cli_recv : forall n, tame (cli_recv n).
Proof.
  intros n w. unfold cli_recv.
  destruct n; [apply extends_emit|].
  destruct (cin w) as [|[|x seg] rest].
  - destruct (cblocking w); apply extends_refl.
  - apply extends_emit.
  - split; [eexists; reflexivity | simpl; lia].
Qed.

Lemma tame_cli_sendall : forall b, tame (cli_sendall b).
Proof. intros b w. rewrite cli_sendall_eq. apply extends_emit. Qed.

Lemma tame_cli_sendall_room :
  forall room b, tame (cli_sendall_room room b).
Proof.
  intros room b w. unfold cli_sendall_room.
  destruct ((length b <=? room)%nat || cblocking w); apply extends_emit.
Qed.

Lemma tame_cli_close : tame cli_close.
Proof. intros w. apply extends_emit. Qed.

Lemma tame_cli_setblocking : forall b, tame (cli_setblocking b).
Proof.
  intros b w. split; [exists []; simpl; rewrite app_nil_r; reflexivity | simpl; lia].
Qed.

(** A loop whose every turn that goes round again has read from the port
    ends within [rx_fuel]. *)
Lemma tame_loop :
  forall S R (body : S -> M (S + R)),
    (forall s, tame (body s)) ->
    (forall s w s' w',
        body s w = Ret (inl s') w' -> (length (rx w') < length (rx w))%nat) ->
    forall s, tame (fun w => loop (rx_fuel w) body s w).
Proof.
  intros S R body Ht Hd.
  assert (H : forall fuel s w,
             (length (rx w) < fuel)%nat ->
             match loop fuel body s w with
             | Ret _ w' => extends w w'
             | Raise _ w' => extends w w'
             | Blocked w' => extends w w'
             | OutOfFuel => False
             end).
  { induction fuel as [|fuel IH]; intros s w Hf; [lia|].
    cbn [loop]. unfold bind.
    pose proof (Ht s w) as H1. pose proof (Hd s w) as H2.
    destruct (body s w) as [[s'|v] w1|e w1|w1|]; try exact H1.
    specialize (H2 s' w1 eq_refl).
    assert (Hf1 : (length (rx w1) < fuel)%nat) by lia.
    specialize (IH s' w1 Hf1).
    destruct (loop fuel body s' w1); try exact IH;
      eapply extends_trans; eassumption. }
  intros s w. apply H. unfold rx_fuel. lia.
Qed.

Create HintDb tame.

#[local] Hint Resolve tame_ret tame_raise tame_or_raise tame_now tame_sleep
  tame_in_waiting tame_reset_input_buffer tame_ser_write tame_ser_read
  tame_ser_readline tame_cli_recv tame_cli_sendall tame_cli_sendall_room
  tame_cli_close tame_cli_setblocking : tame.

(** Takes a computation apart along its binds and its tests. *)
Ltac tame_steps :=
  repeat (first
    [ solve [auto with tame]
    | progress intros
    | progress cbv beta
    | match goal with
      | |- tame (bind _ _) => apply tame_bind
      | |- tame (if ?b then _ else _) => destruct b
      | |- tame (match ?x with _ => _ end) => destruct x
      | |- tame (let _ := _ in _) => cbv zeta
      end ]).

Lemma tame_encode_or_raise : forall s, tame (encode_or_raise s).
Proof. intros s. apply tame_or_raise. Qed.

#[local] Hint Resolve tame_encode_or_raise : tame.

Lemma tame_wait_for_rdy : tame _wait_for_rdy.
Proof.
  unfold _wait_for_rdy. apply tame_loop.
  - intros s. unfold wait_for_rdy_turn. tame_steps.
  - intros s w s' w'. unfold wait_for_rdy_turn, bind.
    pose proof (ser_readline_spec w) as H.
    destruct (ser_readline w) as [raw w1| | |]; try discriminate.
    destruct H as (_ & _ & _ & Hlen & _).
    destruct (list_eqb _ _); unfold ret; intros E; inversion E; subst.
    exact Hlen.
Qed.

Lemma tame_send_at : forall cmd timeout, tame (_send_at cmd timeout).
Proof.
  intros cmd timeout. unfold _send_at. tame_steps.
  apply tame_loop.
  - intros s. unfold send_at_turn. tame_steps.
  - intros s w s' w'. unfold send_at_turn, bind, now, in_waiting.
    destruct (clock w <? _); [|discriminate].
    match goal with
    | |- context [ser_read ?k w] =>
      assert (Hk : (1 <= k)%nat) by (destruct (length (arrived (clock w) (rx w))); lia);
      destruct (ser_read k w) as [raw w1| | |] eqn:Hr; try discriminate
    end.
    pose proof (ser_read_length _ _ _ _ Hr).
    destruct (decode_ignore raw); [|destruct (has_terminal _)];
      unfold ret; intros E; inversion E; subst; lia.
Qed.

Lemma tame_open_poll : forall m, tame (open_poll m).
Proof.
  intros m w.
  destruct (open_poll_spec m w) as (b & w' & reads & E & T & R & _).
  rewrite E. split; [eexists; exact T|].
  apply (f_equal (@List.length Z)) in R.
  rewrite length_app, !length_map in R. lia.
Qed.

#[local] Hint Resolve tame_wait_for_rdy tame_send_at tame_open_poll : tame.

Lemma tame_open_tcp_direct_push :
  forall m host port, tame (open_tcp_direct_push m host port).
Proof. intros. unfold open_tcp_direct_push. tame_steps. Qed.

Lemma tame_wait_for_prompt : tame _wait_for_prompt.
Proof.
  unfold _wait_for_prompt. tame_steps. apply tame_loop.
  - intros s. unfold wait_for_prompt_turn. tame_steps.
  - intros s w s' w'. unfold wait_for_prompt_turn, bind, now.
    destruct (clock w <? _); [|discriminate].
    destruct (ser_read 1 w) as [raw w1| | |] eqn:Hr; try discriminate.
    pose proof (ser_read_length _ _ _ _ Hr).
    destruct (list_eqb _ _); unfold ret; intros E; inversion E; subst; lia.
Qed.

Lemma tame_read_ack_line : tame read_ack_line.
Proof.
  unfold read_ack_line. tame_steps. apply tame_loop.
  - intros s. unfold read_ack_turn. tame_steps.
  - intros s w s' w'. unfold read_ack_turn, bind, now.
    destruct (clock w <? _); [|discriminate].
    destruct (ser_read 1 w) as [raw w1| | |] eqn:Hr; try discriminate.
    pose proof (ser_read_length _ _ _ _ Hr).
    destruct raw; [|destruct (endswith _ _)];
      unfold ret; intros E; inversion E; subst; lia.
Qed.

#[local] Hint Resolve tame_open_tcp_direct_push tame_wait_for_prompt
  tame_read_ack_line : tame.

Lemma tame_send_raw : forall m data, tame (send_raw m data).
Proof. intros. unfold send_raw. tame_steps. Qed.

#[local] Hint Resolve tame_send_raw : tame.

Lemma tame_send_each : forall m cs, tame (send_each m cs).
Proof.
  intros m. induction cs as [|c cs IH]; cbn [send_each]; tame_steps.
Qed.

Lemma send_chunks_send_each :
  forall m data w, send_chunks m data w = send_each m (chunks data) w.
Proof.
  intros m data w. unfold send_chunks. rewrite send_chunks_loop by lia.
  reflexivity.
Qed.

Lemma tame_send_chunks : forall m data, tame (send_chunks m data).
Proof.
  intros m data w. rewrite send_chunks_send_each. apply tame_send_each.
Qed.

Lemma tame_close_tcp : forall m, tame (close_tcp m).
Proof. intros. unfold close_tcp. tame_steps. Qed.

Lemma tame_read_payload : forall len, tame (read_payload len).
Proof.
  intros len. unfold read_payload. apply tame_loop.
  - intros s. unfold read_payload_turn. tame_steps.
  - intros s w s' w'. unfold read_payload_turn, bind.
    destruct (Z.ltb_spec (Z.of_nat (length s)) len) as [Hlt|]; [|discriminate].
    destruct (ser_read _ w) as [raw w1| | |] eqn:Hr; try discriminate.
    pose proof (ser_read_length _ _ _ _ Hr).
    unfold ret; intros E; inversion E; subst; lia.
Qed.

#[local] Hint Resolve tame_send_chunks tame_close_tcp tame_read_payload : tame.

Lemma tame_client_to_modem : forall m, tame (client_to_modem m).
Proof. intros. unfold client_to_modem. tame_steps. Qed.

Lemma tame_modem_to_client : forall room, tame (modem_to_client room).
Proof. intros room. unfold modem_to_client. tame_steps. Qed.

#[local] Hint Resolve tame_client_to_modem tame_modem_to_client : tame.

Lemma tame_relay_loop : forall m sel, tame (relay_loop m sel).
Proof.
  intros m. induction sel as [|[[c s] room] sel IH]; cbn [relay_loop].
  - intros w. apply extends_refl.
  - tame_steps.
Qed.

#[local] Hint Resolve tame_relay_loop : tame.

Lemma tame_connect_and_relay :
  forall m sel addr port, tame (connect_and_relay m sel addr port).
Proof. intros. unfold connect_and_relay. tame_steps. Qed.

Lemma tame_read_address : forall atyp, tame (read_address atyp).
Proof. intros. unfold read_address. tame_steps. Qed.

Lemma tame_read_port : tame read_port.
Proof. unfold read_port. tame_steps. Qed.

#[local] Hint Resolve tame_connect_and_relay tame_read_address tame_read_port
  : tame.

Lemma tame_serve_request :
  forall m sel cmd atyp, tame (serve_request m sel cmd atyp).
Proof. intros. unfold serve_request. tame_steps. Qed.

Lemma tame_negotiate : tame negotiate.
Proof. unfold negotiate. tame_steps. Qed.

Lemma tame_read_request_header : tame read_request_header.
Proof. unfold read_request_header. tame_steps. Qed.

#[local] Hint Resolve tame_serve_request tame_negotiate
  tame_read_request_header : tame.

Lemma tame_handle_client : forall m sel, tame (handle_client m sel).
Proof.
  intros. unfold handle_client. apply tame_try_finally; tame_steps.
Qed.

Lemma tame_QuectelModem_init :
  forall cid sock_id, tame (QuectelModem_init cid sock_id).
Proof. intros. unfold QuectelModem_init. tame_steps. Qed.

(** ** [handle_client] *)

Lemma cli_recv_ret :
  forall n w b w',
    cli_recv n w = Ret b w' ->
    trace w' = trace w ++ [CliRecv b] /\ rx w' = rx w /\ clock w' = clock w.
Proof.
  intros n w b w'. unfold cli_recv.
  destruct n.
  - intros E. inversion E; subst. repeat split.
  - destruct (cin w) as [|[|x seg] rest].
    + destruct (cblocking w); discriminate.
    + intros E. inversion E; subst. repeat split.
    + intros E. inversion E; subst. repeat split.
Qed.

Lemma negotiate_ret :
  forall w w0,
    negotiate w = Ret tt w0 ->
    exists ver nmethods methods,
      trace w0 = trace w ++ [CliRecv [ver; nmethods]; CliRecv methods;
                             CliSend [0x05; 0x00]] /\
      rx w0 = rx w /\ clock w0 = clock w.
Proof.
  intros w w0. unfold negotiate. unfold bind at 1.
  destruct (cli_recv 2 w) as [g wa| | |] eqn:H1; try discriminate.
  destruct g as [|ver [|nm [|x g]]]; try discriminate.
  unfold bind at 1.
  destruct (cli_recv (Z.to_nat nm) wa) as [ms wb| | |] eqn:H2; try discriminate.
  rewrite cli_sendall_eq. intros E. inversion E; subst.
  apply cli_recv_ret in H1. destruct H1 as (T1 & R1 & K1).
  apply cli_recv_ret in H2. destruct H2 as (T2 & R2 & K2).
  exists ver, nm, ms. cbn [trace rx clock emit].
  rewrite T2, T1, <- !app_assoc. repeat split; congruence.
Qed.

Lemma read_request_header_ret :
  forall w cmd atyp w',
    read_request_header w = Ret (cmd, atyp) w' ->
    exists ver rsv,
      trace w' = trace w ++ [CliRecv [ver; cmd; rsv; atyp]] /\
      rx w' = rx w /\ clock w' = clock w.
Proof.
  intros w cmd atyp w'. unfold read_request_header, bind.
  destruct (cli_recv 4 w) as [h wa| | |] eqn:H1; try discriminate.
  destruct h as [|v [|c [|r [|a [|x h]]]]]; try discriminate.
  unfold ret. intros E. inversion E; subst.
  apply cli_recv_ret in H1. exists v, r. exact H1.
Qed.

(** How [handle_client] goes on once the header of the request is read. *)
Lemma handle_client_after_header :
  forall m sel w w0 w1 cmd atyp,
    negotiate w = Ret tt w0 ->
    read_request_header w0 = Ret (cmd, atyp) w1 ->
    handle_client m sel w =
    try_finally (serve_request m sel cmd atyp) cli_close w1.
Proof.
  intros m sel w w0 w1 cmd atyp Hn Hh.
  unfold handle_client, try_finally. unfold bind at 1. rewrite Hn.
  unfold bind at 1. rewrite Hh. reflexivity.
Qed.

(** C7, as stated, fails: a BIND request, and a CONNECT request to an IPv6
    address, get no reply at all.  All the client ever receives is the answer
    to its greeting. *)
Lemma unsupported_request_gets_no_reply :
  (exists w',
     handle_client the_modem []
       (fresh_world [] [[5; 1; 0]; [5; 2; 0; 1; 10; 0; 0; 1; 0; 80]])
     = Ret tt w' /\ sent (trace w') = [0x05; 0x00]) /\
  (exists w',
     handle_client the_modem []
       (fresh_world [] [[5; 1; 0]; [5; 1; 0; 4] ++ repeat 0 16 ++ [0; 80]])
     = Ret tt w' /\ sent (trace w') = [0x05; 0x00]).
Proof.
  split; eexists; split; vm_compute; reflexivity.
Qed.

(** C7, amended.  A request whose command is not CONNECT, or whose address
    type is neither an IPv4 address nor a domain name, is dropped: the relay
    returns at once and closes the connection.  The client has received the
    answer to its greeting and nothing else; nothing was written to the
    modem. *)
Theorem unsupported_request_closed_without_reply :
  forall m sel w w0 w1 cmd atyp,
    negotiate w = Ret tt w0 ->
    read_request_header w0 = Ret (cmd, atyp) w1 ->
    cmd <> 1 \/ (atyp <> 1 /\ atyp <> 3) ->
    exists ver nmethods methods v rsv,
      handle_client m sel w = Ret tt (emit CliClose w1) /\
      trace (emit CliClose w1) =
      trace w ++ [CliRecv [ver; nmethods]; CliRecv methods;
                  CliSend [0x05; 0x00];
                  CliRecv [v; cmd; rsv; atyp]; CliClose].
Proof.
  intros m sel w w0 w1 cmd atyp Hn Hh Hbad.
  pose proof (handle_client_after_header m sel _ _ _ _ _ Hn Hh) as E.
  destruct (negotiate_ret _ _ Hn) as (ver & nm & ms & T0 & _).
  destruct (read_request_header_ret _ _ _ _ Hh) as (v & rsv & T1 & _).
  exists ver, nm, ms, v, rsv. split.
  - rewrite E. unfold try_finally, serve_request.
    destruct (Z.eqb_spec cmd 1) as [Hc|Hc]; cbn [negb].
    + destruct Hbad as [Hbad|[H1 H3]]; [contradiction|].
      unfold bind at 1, read_address.
      destruct (Z.eqb_spec atyp 1); [contradiction|].
      destruct (Z.eqb_spec atyp 3); [contradiction|].
      reflexivity.
    + reflexivity.
  - cbn [trace emit]. rewrite T1, T0, <- !app_assoc. reflexivity.
Qed.


Lemma unsupported_request_closed_without_reply_witness :
  exists w',
    handle_client the_modem []
      (fresh_world [] [[5; 1; 0]; [5; 3; 0; 1; 10; 0; 0; 1; 0; 80]])
    = Ret tt w' /\
    trace w' = [CliRecv [5; 1]; CliRecv [0]; CliSend [0x05; 0x00];
                CliRecv [5; 3; 0; 1]; CliClose].
Proof.
  edestruct (unsupported_request_closed_without_reply the_modem []
               (fresh_world [] [[5; 1; 0]; [5; 3; 0; 1; 10; 0; 0; 1; 0; 80]]))
    as (ver & nm & ms & v & rsv & H1 & H2).
  - vm_compute. reflexivity.
  - vm_compute. reflexivity.
  - left. discriminate.
  - eexists. split; [exact H1 | vm_compute; reflexivity].
Defined.

(** How [handle_client] goes on once the target of the request is read. *)
Lemma handle_client_after_request :
  forall m sel w w0 w1 w2 w3 atyp addr port,
    negotiate w = Ret tt w0 ->
    read_request_header w0 = Ret (1, atyp) w1 ->
    read_address atyp w1 = Ret (Some addr) w2 ->
    read_port w2 = Ret port w3 ->
    handle_client m sel w =
    try_finally (connect_and_relay m sel addr port) cli_close w3.
Proof.
  intros m sel w w0 w1 w2 w3 atyp addr port Hn Hh Ha Hp.
  rewrite (handle_client_after_header m sel _ _ _ _ _ Hn Hh).
  unfold try_finally, serve_request. cbn [Z.eqb Pos.eqb negb].
  unfold bind at 1. rewrite Ha. unfold bind at 1. rewrite Hp. reflexivity.
Qed.

(** C8. When the open of the modem's socket fails, the client is sent the
    failure reply 05 01 00 01 00 00 00 00 00 00 and the connection is closed:
    nothing else is sent to the client or written to the modem.  When it
    succeeds, the client is sent exactly 05 00 00 01 00 00 00 00 00 00, and
    only then does the relay start: whatever the relay does comes after that
    reply in the trace. *)
Theorem connect_reply_follows_open_result :
  forall m sel w w0 w1 w2 w3 w4 atyp addr port opened,
    negotiate w = Ret tt w0 ->
    read_request_header w0 = Ret (1, atyp) w1 ->
    read_address atyp w1 = Ret (Some addr) w2 ->
    read_port w2 = Ret port w3 ->
    open_tcp_direct_push m addr port w3 = Ret opened w4 ->
    if opened then
      handle_client m sel w =
      try_finally
        (cli_setblocking false ;;; relay_loop m sel ;;; close_tcp m)
        cli_close
        (emit (CliSend [0x05; 0x00; 0x00; 0x01; 0; 0; 0; 0; 0; 0]) w4) /\
      match handle_client m sel w with
      | Ret _ w' | Raise _ w' | Blocked w' =>
        exists evs,
          trace w' =
          trace w4 ++ CliSend [0x05; 0x00; 0x00; 0x01; 0; 0; 0; 0; 0; 0] :: evs
      | OutOfFuel => False
      end
    else
      handle_client m sel w =
      Ret tt (emit CliClose
                (emit (CliSend [0x05; 0x01; 0x00; 0x01; 0; 0; 0; 0; 0; 0]) w4)).
Proof.
  intros m sel w w0 w1 w2 w3 w4 atyp addr port opened Hn Hh Ha Hp Ho.
  rewrite (handle_client_after_request m sel _ _ _ _ _ _ _ _ Hn Hh Ha Hp).
  destruct opened.
  - assert (E : try_finally (connect_and_relay m sel addr port) cli_close w3 =
                try_finally
                  (cli_setblocking false ;;; relay_loop m sel ;;; close_tcp m)
                  cli_close
                  (emit (CliSend [0x05; 0x00; 0x00; 0x01; 0; 0; 0; 0; 0; 0]) w4)).
    { unfold try_finally at 1, connect_and_relay. unfold bind at 1.
      rewrite Ho. cbn [negb]. unfold bind at 1. rewrite cli_sendall_eq.
      reflexivity. }
    split; [exact E|]. rewrite E.
    assert (T : tame (try_finally
                        (cli_setblocking false ;;; relay_loop m sel ;;; close_tcp m)
                        cli_close)).
    { apply tame_try_finally; tame_steps. }
    specialize (T (emit (CliSend [0x05; 0x00; 0x00; 0x01; 0; 0; 0; 0; 0; 0]) w4)).
    clear E. revert T.
    generalize (try_finally
                  (cli_setblocking false ;;; relay_loop m sel ;;; close_tcp m)
                  cli_close
                  (emit (CliSend [0x05; 0x00; 0x00; 0x01; 0; 0; 0; 0; 0; 0]) w4)).
    intros [a w'|e w'|w'|] T; [ | | | exact T];
      destruct T as [[evs T] _]; exists evs; rewrite T; cbn [trace emit];
      rewrite <- app_assoc; reflexivity.
  - unfold try_finally, connect_and_relay. unfold bind at 1.
    rewrite Ho. reflexivity.
Qed.

Lemma connect_reply_follows_open_result_witness :
  exists w',
    handle_client the_modem []
      (fresh_world
         (modem_says 5 (CRLF ++ lit "OK" ++ CRLF) ++
          modem_says 900 (CRLF ++ lit "+QIOPEN: 0,566" ++ CRLF))
         [[5; 1; 0]; [5; 1; 0; 1; 93; 184; 216; 34; 0; 80]])
    = Ret tt w' /\
    sent (trace w') = [0x05; 0x00] ++ [0x05; 0x01; 0x00; 0x01; 0; 0; 0; 0; 0; 0] /\
    written (trace w') =
      lit "AT+QIOPEN=1,0," ++ DQUOTE ++ lit "TCP" ++ DQUOTE ++ lit "," ++ DQUOTE
      ++ lit "93.184.216.34" ++ DQUOTE ++ lit ",80,0,1" ++ CR.
Proof.
  eexists. split.
  - eapply (connect_reply_follows_open_result the_modem [] _ _ _ _ _ _ 1 _ _
              false).
    + vm_compute. reflexivity.
    + vm_compute. reflexivity.
    + vm_compute. reflexivity.
    + vm_compute. reflexivity.
    + vm_compute. reflexivity.
  - split; vm_compute; reflexivity.
Defined.

(** ** The client threads *)

Module ThreadsFacts.
Import Threads.

Lemma in_progress_app :
  forall log ms,
    in_progress (log ++ ms) = fold_left apply_mark ms (in_progress log).
Proof. intros. unfold in_progress. apply fold_left_app. Qed.

Lemma NoDup_remove_all :
  forall (x : nat) l, NoDup l -> NoDup (remove Nat.eq_dec x l).
Proof.
  intros x l H. induction H as [|y l Hy H IH]; simpl; [constructor|].
  destruct (Nat.eq_dec x y); [exact IH|].
  constructor; [|exact IH].
  intros Hin. apply in_remove in Hin. tauto.
Qed.

Lemma length_set_nth :
  forall l tid t, length (set_nth tid t l) = length l.
Proof.
  induction l as [|x l IH]; intros [|tid] t; simpl; try reflexivity.
  rewrite IH. reflexivity.
Qed.

Lemma nth_error_set_nth_same :
  forall l tid t x,
    nth_error l tid = Some x -> nth_error (set_nth tid t l) tid = Some t.
Proof.
  induction l as [|y l IH]; intros [|tid] t x H; simpl in *;
    try discriminate; [reflexivity | eapply IH; eassumption].
Qed.

Lemma nth_error_set_nth_other :
  forall l tid tid' t,
    tid <> tid' -> nth_error (set_nth tid t l) tid' = nth_error l tid'.
Proof.
  induction l as [|y l IH]; intros [|tid] [|tid'] t H; simpl;
    try reflexivity; try congruence.
  apply IH. congruence.
Qed.

Lemma consistent_initial : consistent initial.
Proof.
  split; [constructor|]. intros tid. split; [intros []|].
  intros (c & todo & H). destruct tid; discriminate.
Qed.

Lemma consistent_step : forall s a, consistent s -> consistent (step s a).
Proof.
  intros s a [Hnd Hiff]. destruct a as [opened sends|tid]; cbn [step].
  - (* a client is accepted *)
    unfold consistent. cbn [wire threads].
    split; [exact Hnd|]. intros tid. rewrite Hiff.
    split; intros (c & todo & H); exists c, todo.
    + rewrite nth_error_app1; [exact H|].
      apply nth_error_Some. congruence.
    + destruct (Nat.lt_ge_cases tid (length (threads s))) as [Hlt|Hge].
      * rewrite nth_error_app1 in H by exact Hlt. exact H.
      * rewrite nth_error_app2 in H by exact Hge.
        destruct (tid - length (threads s))%nat as [|k]; simpl in H;
          [discriminate | destruct k; discriminate].
  - (* a thread takes a step *)
    destruct (nth_error (threads s) tid) as [t|] eqn:Ht; [|split; assumption].
    destruct t as [[|c todo]|c todo]; unfold consistent;
      cbn [step_thread wire threads].
    + (* the thread has ended *)
      rewrite app_nil_r. split; [exact Hnd|]. intros tid'. rewrite Hiff.
      destruct (Nat.eq_dec tid tid') as [<-|Hne].
      * rewrite (nth_error_set_nth_same _ _ _ _ Ht), Ht.
        split; intros (c & todo & H); discriminate.
      * rewrite (nth_error_set_nth_other _ _ _ _ Hne). reflexivity.
    + (* the thread goes into a call *)
      rewrite in_progress_app. cbn [fold_left apply_mark].
      assert (Hnot : ~ In tid (in_progress (wire s))).
      { rewrite Hiff, Ht. intros (c' & todo' & H). discriminate. }
      split; [constructor; assumption|].
      intros tid'. cbn [In].
      destruct (Nat.eq_dec tid tid') as [<-|Hne].
      * rewrite (nth_error_set_nth_same _ _ _ _ Ht).
        split; [intros _; exists c, todo; reflexivity | intros _; left; reflexivity].
      * rewrite (nth_error_set_nth_other _ _ _ _ Hne), <- Hiff.
        split; [intros [H|H]; [contradiction | exact H] | intros H; right; exact H].
    + (* the thread comes out of a call *)
      rewrite in_progress_app. cbn [fold_left apply_mark].
      split; [apply NoDup_remove_all; exact Hnd|].
      intros tid'.
      destruct (Nat.eq_dec tid tid') as [<-|Hne].
      * rewrite (nth_error_set_nth_same _ _ _ _ Ht).
        split; [intros H; apply remove_In in H; contradiction|].
        intros (c' & todo' & H). discriminate.
      * rewrite (nth_error_set_nth_other _ _ _ _ Hne), <- Hiff.
        split; [intros H; apply in_remove in H; tauto|].
        intros H. apply in_in_remove; [congruence | exact H].
Qed.

Lemma threads_step :
  forall s a,
    length (threads (step s a)) =
    (length (threads s) +
     match a with Accept _ _ => 1%nat | Run _ => 0%nat end)%nat.
Proof.
  intros s [opened sends|tid]; cbn [step].
  - cbn [threads]. rewrite length_app. reflexivity.
  - destruct (nth_error (threads s) tid) as [t|]; [|lia].
    destruct (step_thread tid t) as [t' ms]. cbn [threads].
    rewrite length_set_nth. lia.
Qed.

Lemma run_from_invariant :
  forall sched s n,
    consistent s -> length (threads s) = n ->
    consistent (fold_left step sched s) /\
    length (threads (fold_left step sched s)) = (n + accepted sched)%nat.
Proof.
  induction sched as [|a sched IH]; intros s n Hc Hn; cbn [fold_left].
  - split; [exact Hc|]. unfold accepted. simpl. lia.
  - destruct (IH (step s a) (length (threads (step s a)))
                (consistent_step s a Hc) eq_refl) as [H1 H2].
    split; [exact H1|]. rewrite H2, threads_step, Hn.
    unfold accepted. destruct a; simpl; lia.
Qed.

Lemma consistent_bound :
  forall s,
    consistent s ->
    (length (in_progress (wire s)) <= length (threads s))%nat.
Proof.
  intros s [Hnd Hiff].
  rewrite <- (length_seq (length (threads s)) 0%nat).
  apply NoDup_incl_length; [exact Hnd|].
  intros tid Hin. apply Hiff in Hin. destruct Hin as (c & todo & H).
  apply in_seq. split; [lia|]. simpl. apply nth_error_Some. congruence.
Qed.

End ThreadsFacts.

(** C1, as stated, fails: two clients are accepted, the thread of the first
    goes into its open, and before that call returns the thread of the second
    goes into its own.  Two exchanges are in progress on the one serial
    link. *)
Lemma two_clients_overlap_on_the_link :
  Threads.in_progress
    (Threads.wire
       (Threads.run [Threads.Accept true 1; Threads.Accept true 1;
                     Threads.Run 0; Threads.Run 1]))
  = [1%nat; 0%nat] /\
  ~ (forall sched,
        (length (Threads.in_progress (Threads.wire (Threads.run sched))) <= 1)%nat).
Proof.
  split; [reflexivity|]. intros H.
  specialize (H [Threads.Accept true 1; Threads.Accept true 1;
                 Threads.Run 0; Threads.Run 1]).
  vm_compute in H. lia.
Qed.

(** C1, amended.  The program has no arbiter: what keeps exchanges apart is
    only that each client thread makes its calls on the modem one after the
    other.  So at any instant there are at most as many exchanges in progress
    as clients have been accepted, one per client thread at most; with a
    single client, at most one. *)
Theorem exchanges_in_progress_bounded_by_clients :
  forall sched,
    NoDup (Threads.in_progress (Threads.wire (Threads.run sched))) /\
    (length (Threads.in_progress (Threads.wire (Threads.run sched)))
     <= Threads.accepted sched)%nat.
Proof.
  intros sched. unfold Threads.run.
  destruct (ThreadsFacts.run_from_invariant sched Threads.initial 0%nat
              ThreadsFacts.consistent_initial eq_refl) as [Hc Hlen].
  split; [exact (proj1 Hc)|].
  pose proof (ThreadsFacts.consistent_bound _ Hc). lia.
Qed.

(* ===================================================================== *)
(** * Further properties of the program *)
(* ===================================================================== *)

(** ** The chunks of a payload *)

Lemma chunks_count :
  forall data,
    (length data <= MAX_CHUNK_SIZE * length (chunks data)
     < length data + MAX_CHUNK_SIZE)%nat.
Proof.
  apply chunks_induction.
  - rewrite chunks_nil. unfold MAX_CHUNK_SIZE. simpl. lia.
  - intros data Hne IH. rewrite (chunks_step _ Hne).
    rewrite length_skipn in IH. cbn [length].
    destruct data; [congruence|].
    unfold MAX_CHUNK_SIZE in *. simpl length in *. lia.
Qed.

(** The chunks are the slices the loop takes, at the multiples of
    [MAX_CHUNK_SIZE]. *)
Lemma chunks_slices :
  forall data,
    chunks data =
    map (fun k => chunk_at data (k * MAX_CHUNK_SIZE))
        (seq 0 (length (chunks data))).
Proof.
  apply chunks_induction.
  - rewrite chunks_nil. reflexivity.
  - intros data Hne IH. rewrite (chunks_step _ Hne). cbn [length seq map].
    f_equal.
    rewrite <- seq_shift, map_map. rewrite IH at 1.
    apply map_ext. intros k. unfold chunk_at.
    rewrite skipn_skipn, Nat.mul_succ_l. reflexivity.
Qed.

(** X1.  The loop that sends a client payload issues one [send_raw] for each
    slice [data[k*MAX_CHUNK_SIZE : (k+1)*MAX_CHUNK_SIZE]], in order, as many
    as the length of the payload divided by [MAX_CHUNK_SIZE], rounded up;
    and every slice but the last is full. *)
Theorem send_chunks_one_send_per_slice :
  forall m data,
    exists count,
      (length data <= MAX_CHUNK_SIZE * count < length data + MAX_CHUNK_SIZE)%nat /\
      (forall w,
         send_chunks m data w =
         send_each m (map (fun k => chunk_at data (k * MAX_CHUNK_SIZE))
                          (seq 0 count)) w) /\
      (forall k, (S k < count)%nat ->
                 length (chunk_at data (k * MAX_CHUNK_SIZE)) = MAX_CHUNK_SIZE).
Proof.
  intros m data. exists (length (chunks data)).
  pose proof (chunks_count data) as Hc.
  split; [exact Hc|]. split.
  - intros w. rewrite <- chunks_slices. apply send_chunks_send_each.
  - intros k Hk. unfold chunk_at. rewrite length_firstn, length_skipn.
    unfold MAX_CHUNK_SIZE in *. lia.
Qed.

(** ** [send_raw], step by step *)

Lemma ser_read_one :
  forall w,
    match ser_read 1 w with
    | Ret b w' =>
      exists t x,
        rx w = (t, x) :: rx w' /\ b = [x] /\
        trace w' = trace w ++ [SerRead [x]] /\
        clock w' = Z.max (clock w) t /\
        cin w' = cin w /\ cblocking w' = cblocking w
    | Blocked w' => w' = w /\ rx w = []
    | Raise _ _ => False
    | OutOfFuel => False
    end.
Proof.
  intros w. unfold ser_read. destruct (rx w) as [|[t x] r] eqn:Hrx.
  - simpl. split; reflexivity.
  - simpl. exists t, x. repeat split; reflexivity.
Qed.

Lemma byte_reads_app :
  forall a b, byte_reads (a ++ b) = byte_reads a ++ byte_reads b.
Proof. intros. apply map_app. Qed.

(** The wait for the prompt reads the stream byte by byte and drops what it
    reads, up to the first [>]. *)
Lemma wait_for_prompt_loop_spec :
  forall deadline fuel w,
    (length (rx w) < fuel)%nat ->
    match loop fuel (wait_for_prompt_turn deadline) tt w with
    | Ret found w' =>
      exists junk,
        ~ In 62 junk /\
        trace w' = trace w ++ byte_reads (junk ++ if found then [62] else []) /\
        map snd (rx w) = junk ++ (if found then [62] else []) ++ map snd (rx w') /\
        (if found then True else deadline <= clock w') /\
        clock w <= clock w' /\ cin w' = cin w /\ cblocking w' = cblocking w
    | Blocked w' =>
      exists junk,
        ~ In 62 junk /\
        trace w' = trace w ++ byte_reads junk /\
        map snd (rx w) = junk /\ rx w' = [] /\ clock w' < deadline /\
        cin w' = cin w /\ cblocking w' = cblocking w
    | Raise _ _ => False
    | OutOfFuel => False
    end.
Proof.
  intros deadline. induction fuel as [|fuel IH]; intros w Hf; [lia|].
  cbn [loop]. unfold bind at 1. unfold wait_for_prompt_turn at 1.
  unfold bind at 1, now at 1.
  destruct (Z.ltb_spec (clock w) deadline) as [Hlt|Hge].
  2:{ unfold ret. exists []. cbn [app byte_reads map]. rewrite app_nil_r.
      repeat split; try reflexivity; try lia. intros []. }
  unfold bind at 1. pose proof (ser_read_one w) as H1.
  destruct (ser_read 1 w) as [b w1|e w1|w1|]; try contradiction.
  - destruct H1 as (t & x & Hrx & -> & Htr & Hclk & Hcin & Hcb).
    change (lit ">") with [62]. cbn [list_eqb].
    destruct (Z.eqb_spec x 62) as [->|Hx]; cbn [andb].
    + unfold ret. exists []. cbn [app byte_reads map]. rewrite Hrx.
      repeat split; try assumption; try reflexivity; try lia. intros [].
    + unfold ret at 1.
      assert (Hf1 : (length (rx w1) < fuel)%nat) by (rewrite Hrx in Hf; simpl in Hf; lia).
      specialize (IH w1 Hf1).
      destruct (loop fuel (wait_for_prompt_turn deadline) tt w1)
        as [found w'|e w'|w'|]; try contradiction.
      * destruct IH as (junk & Hj & T & R & D & K & C1 & C2).
        assert (Hj' : ~ In 62 (x :: junk))
          by (intros [E|E]; [congruence | exact (Hj E)]).
        assert (T' : trace w' = trace w ++
                       byte_reads ((x :: junk) ++ if found then [62] else []))
          by (cbn [app byte_reads map]; rewrite T, Htr, <- app_assoc; reflexivity).
        assert (R' : map snd (rx w) =
                     (x :: junk) ++ (if found then [62] else []) ++ map snd (rx w'))
          by (rewrite Hrx; cbn [map snd app]; rewrite R; reflexivity).
        exists (x :: junk).
        repeat split; try assumption; try congruence; try lia.
      * destruct IH as (junk & Hj & T & R & E0 & D & C1 & C2).
        assert (Hj' : ~ In 62 (x :: junk))
          by (intros [E|E]; [congruence | exact (Hj E)]).
        assert (T' : trace w' = trace w ++ byte_reads (x :: junk))
          by (cbn [app byte_reads map]; rewrite T, Htr, <- app_assoc; reflexivity).
        assert (R' : map snd (rx w) = x :: junk)
          by (rewrite Hrx; cbn [map snd]; rewrite R; reflexivity).
        exists (x :: junk).
        repeat split; try assumption; try congruence; try lia.
  - destruct H1 as [-> Hrx]. exists []. cbn [app byte_reads map].
    rewrite app_nil_r, Hrx. repeat split; try reflexivity; try assumption.
    intros [].
Qed.

(** When the wait for the prompt is over, the clock is at the arrival of the
    last byte it read. *)
Lemma wait_for_prompt_clock :
  forall deadline fuel w found w',
    loop fuel (wait_for_prompt_turn deadline) tt w = Ret found w' ->
    exists pre, rx w = pre ++ rx w' /\ clock w' = arrival (clock w) pre.
Proof.
  intros deadline. induction fuel as [|fuel IH]; intros w found w' H;
    [discriminate|].
  cbn [loop] in H. unfold bind at 1 in H. unfold wait_for_prompt_turn at 1 in H.
  unfold bind at 1, now at 1 in H.
  destruct (clock w <? deadline).
  2:{ unfold ret in H. inversion H; subst. exists []. split; reflexivity. }
  unfold bind at 1 in H. pose proof (ser_read_one w) as H1.
  destruct (ser_read 1 w) as [b w1|e w1|w1|]; try discriminate.
  destruct H1 as (t & x & Hrx & -> & _ & Hclk & _).
  destruct (list_eqb [x] (lit ">")).
  - unfold ret in H. inversion H; subst. exists [(t, x)].
    split; [exact Hrx | exact Hclk].
  - unfold ret at 1 in H. apply IH in H. destruct H as (pre & Hp & Hc).
    exists ((t, x) :: pre). rewrite Hrx, Hp. split; [reflexivity|].
    cbn [arrival]. rewrite <- Hclk. exact Hc.
Qed.

(** Step 4 reads the stream byte by byte up to the first time the bytes read
    end in CR LF. *)
Lemma read_ack_loop_spec :
  forall deadline fuel line0 w,
    (length (rx w) < fuel)%nat ->
    match loop fuel (read_ack_turn deadline) line0 w with
    | Ret acked w' =>
      exists got,
        trace w' = trace w ++ byte_reads got /\
        map snd (rx w) = got ++ map snd (rx w') /\
        (if acked then first_line_end line0 got
         else no_line_end line0 got /\ deadline <= clock w') /\
        clock w <= clock w' /\ cin w' = cin w /\ cblocking w' = cblocking w
    | Blocked w' =>
      exists got,
        trace w' = trace w ++ byte_reads got /\
        map snd (rx w) = got /\ rx w' = [] /\
        no_line_end line0 got /\ clock w' < deadline /\
        cin w' = cin w /\ cblocking w' = cblocking w
    | Raise _ _ => False
    | OutOfFuel => False
    end.
Proof.
  intros deadline. induction fuel as [|fuel IH]; intros line0 w Hf; [lia|].
  cbn [loop]. unfold bind at 1. unfold read_ack_turn at 1.
  unfold bind at 1, now at 1.
  destruct (Z.ltb_spec (clock w) deadline) as [Hlt|Hge].
  2:{ unfold ret. exists []. cbn [app byte_reads map]. rewrite app_nil_r.
      repeat split; try reflexivity; try lia.
      intros k Hk. simpl in Hk. lia. }
  unfold bind at 1. pose proof (ser_read_one w) as H1.
  destruct (ser_read 1 w) as [b w1|e w1|w1|]; try contradiction.
  - destruct H1 as (t & x & Hrx & -> & Htr & Hclk & Hcin & Hcb).
    cbv zeta.
    destruct (endswith CRLF (line0 ++ [x])) eqn:Hend.
    + unfold ret. exists [x]. cbn [app byte_reads map]. rewrite Hrx.
      repeat split; try assumption; try reflexivity; try lia.
      * discriminate.
      * intros k Hk. simpl in Hk. lia.
    + unfold ret at 1.
      assert (Hf1 : (length (rx w1) < fuel)%nat) by (rewrite Hrx in Hf; simpl in Hf; lia).
      specialize (IH (line0 ++ [x]) w1 Hf1).
      assert (Hshift : forall got k,
                 (line0 ++ [x]) ++ firstn k got = line0 ++ firstn (S k) (x :: got)).
      { intros got k. rewrite <- app_assoc. reflexivity. }
      destruct (loop fuel (read_ack_turn deadline) (line0 ++ [x]) w1)
        as [acked w'|e w'|w'|]; try contradiction.
      * destruct IH as (got & T & R & A & K & C1 & C2).
        assert (T' : trace w' = trace w ++ byte_reads (x :: got))
          by (cbn [byte_reads map]; rewrite T, Htr, <- app_assoc; reflexivity).
        assert (R' : map snd (rx w) = (x :: got) ++ map snd (rx w'))
          by (rewrite Hrx; cbn [map snd app]; rewrite R; reflexivity).
        assert (A' : if acked then first_line_end line0 (x :: got)
                     else no_line_end line0 (x :: got) /\ deadline <= clock w').
        { destruct acked.
          - destruct A as (A1 & A2 & A3). repeat split.
            + discriminate.
            + rewrite <- app_assoc in A2. exact A2.
            + intros [|[|k]] Hk; [lia | exact Hend |].
              rewrite <- Hshift. apply A3. simpl in Hk. lia.
          - destruct A as (A1 & A2). split; [|exact A2].
            intros [|[|k]] Hk; [lia | exact Hend |].
            rewrite <- Hshift. apply A1. simpl in Hk. lia. }
        exists (x :: got).
        repeat split; try assumption; try congruence; try lia.
      * destruct IH as (got & T & R & E0 & A & D & C1 & C2).
        assert (T' : trace w' = trace w ++ byte_reads (x :: got))
          by (cbn [byte_reads map]; rewrite T, Htr, <- app_assoc; reflexivity).
        assert (R' : map snd (rx w) = x :: got)
          by (rewrite Hrx; cbn [map snd]; rewrite R; reflexivity).
        assert (A' : no_line_end line0 (x :: got)).
        { intros [|[|k]] Hk; [lia | exact Hend |].
          rewrite <- Hshift. apply A. simpl in Hk. lia. }
        exists (x :: got).
        repeat split; try assumption; try congruence; try lia.
  - destruct H1 as [-> Hrx]. exists []. cbn [app byte_reads map].
    rewrite app_nil_r, Hrx. repeat split; try reflexivity; try assumption.
    intros k Hk. simpl in Hk. lia.
Qed.

(** X2.  [send_raw], as a whole.  The command is written first.  What the modem
    sends before its prompt is read and dropped.  The payload and the final
    Ctrl-Z are written only once a [>] has been read.  The call returns when
    the bytes read after that first end in CR LF, whatever they say.  It
    raises [TimeoutError] only when a check of the clock finds a deadline
    over: [PROMPT_TIMEOUT] after the call for the prompt, [ACK_TIMEOUT] after
    the arrival of the prompt for the answer.  It blocks when the modem's
    stream runs dry. *)
Theorem send_raw_outcomes :
  forall m data w,
    match send_raw m data w with
    | Ret _ w' =>
      exists junk ack,
        ~ In 62 junk /\ first_line_end [] ack /\
        trace w' = trace w ++ [SerWrite (qisend_cmd m (length data))]
                   ++ byte_reads (junk ++ [62])
                   ++ [SerWrite data; SerWrite CTRL_Z] ++ byte_reads ack /\
        map snd (rx w) = junk ++ [62] ++ ack ++ map snd (rx w')
    | Raise e w' =>
      (e = TimeoutError "No '>' prompt" /\
       exists junk,
         ~ In 62 junk /\
         trace w' = trace w ++ [SerWrite (qisend_cmd m (length data))]
                    ++ byte_reads junk /\
         clock w + PROMPT_TIMEOUT <= clock w')
      \/
      (e = TimeoutError "Timeout waiting for QISEND response" /\
       exists junk ack,
         ~ In 62 junk /\ no_line_end [] ack /\
         trace w' = trace w ++ [SerWrite (qisend_cmd m (length data))]
                    ++ byte_reads (junk ++ [62])
                    ++ [SerWrite data; SerWrite CTRL_Z] ++ byte_reads ack /\
         arrival (clock w) (firstn (S (length junk)) (rx w)) + ACK_TIMEOUT
           <= clock w')
    | Blocked w' =>
      rx w' = [] /\
      ((exists junk,
          ~ In 62 junk /\
          trace w' = trace w ++ [SerWrite (qisend_cmd m (length data))]
                     ++ byte_reads junk)
       \/
       (exists junk ack,
          ~ In 62 junk /\ no_line_end [] ack /\
          trace w' = trace w ++ [SerWrite (qisend_cmd m (length data))]
                     ++ byte_reads (junk ++ [62])
                     ++ [SerWrite data; SerWrite CTRL_Z] ++ byte_reads ack))
    | OutOfFuel => False
    end.
Proof.
  intros m data w.
  unfold send_raw. unfold bind at 1, encode_or_raise.
  rewrite qisend_cmd_encodes. cbn [or_raise]. unfold ret at 1.
  unfold bind at 1, ser_write at 1.
  set (cmd := qisend_cmd m (length data)).
  set (w1 := emit (SerWrite cmd) w).
  unfold bind at 1. unfold _wait_for_prompt. unfold bind at 1, now at 1.
  cbv zeta.
  pose proof (wait_for_prompt_loop_spec (clock w1 + PROMPT_TIMEOUT)
                (rx_fuel w1) w1 (Nat.lt_succ_diag_r _)) as P.
  destruct (loop (rx_fuel w1) (wait_for_prompt_turn (clock w1 + PROMPT_TIMEOUT)) tt w1)
    as [found w2|e w2|w2|] eqn:EL; try contradiction.
  2:{ (* blocked while waiting for the prompt *)
      destruct P as (junk & Hj & T & R & E0 & D & _).
      split; [exact E0|]. left. exists junk. split; [exact Hj|].
      rewrite T. unfold w1. cbn [trace emit]. rewrite <- app_assoc. reflexivity. }
  destruct P as (junk & Hj & T & R & D & K & _).
  destruct found; cbn [negb].
  2:{ (* no prompt by the deadline *)
      unfold raise. left. split; [reflexivity|]. exists junk.
      rewrite app_nil_r in T. split; [exact Hj|]. split.
      - rewrite T. unfold w1. cbn [trace emit]. rewrite <- app_assoc. reflexivity.
      - exact D. }
  unfold bind at 1, ser_write at 1. unfold bind at 1, ser_write at 1.
  set (w3 := emit (SerWrite CTRL_Z) (emit (SerWrite data) w2)).
  assert (T3 : trace w3 = trace w ++ [SerWrite cmd] ++ byte_reads (junk ++ [62])
                          ++ [SerWrite data; SerWrite CTRL_Z]).
  { unfold w3. cbn [trace emit]. rewrite T. unfold w1. cbn [trace emit].
    rewrite <- ?app_assoc. reflexivity. }
  assert (R3 : map snd (rx w) = junk ++ [62] ++ map snd (rx w3)) by exact R.
  unfold bind at 1. unfold read_ack_line. unfold bind at 1, now at 1. cbv zeta.
  pose proof (read_ack_loop_spec (clock w3 + ACK_TIMEOUT)
                (rx_fuel w3) [] w3 (Nat.lt_succ_diag_r _)) as A.
  destruct (loop (rx_fuel w3) (read_ack_turn (clock w3 + ACK_TIMEOUT)) [] w3)
    as [acked w4|e w4|w4|]; try contradiction.
  - destruct A as (ack & T4 & R4 & A & _).
    destruct acked.
    + unfold ret. exists junk, ack. repeat split; try assumption; try apply A.
      * rewrite T4, T3, <- ?app_assoc. reflexivity.
      * rewrite R3, R4, <- ?app_assoc. reflexivity.
    + unfold raise. right. split; [reflexivity|]. exists junk, ack.
      destruct A as [A D4].
      split; [exact Hj|]. split; [exact A|]. split.
      * rewrite T4, T3, <- ?app_assoc. reflexivity.
      * apply wait_for_prompt_clock in EL. destruct EL as (pre & Hp & Hc).
        assert (Hpre : map snd pre = junk ++ [62]).
        { rewrite Hp, map_app in R.
          rewrite app_assoc in R. apply app_inv_tail in R. exact R. }
        assert (Hlen : length pre = S (length junk)).
        { rewrite <- (length_map snd), Hpre, length_app. simpl. lia. }
        change (rx w1) with (rx w) in Hp. rewrite Hp, <- Hlen.
        rewrite firstn_app, Nat.sub_diag, firstn_all. cbn [firstn].
        rewrite app_nil_r.
        change (clock w1) with (clock w) in Hc. rewrite <- Hc.
        exact D4.
  - destruct A as (ack & T4 & R4 & E4 & A & _).
    split; [exact E4|]. right. exists junk, ack.
    repeat split; try assumption.
    rewrite T4, T3, <- ?app_assoc. reflexivity.
Qed.

(** ** Relations kept by every function of the program *)

Section Kept.

Variable R : World -> World -> Prop.

Hypothesis R_refl : forall w, R w w.
Hypothesis R_trans : forall a b c, R a b -> R b c -> R a c.

(** What the primitive operations must do. *)
Hypothesis R_sleep : forall d, keeps R (sleep d).
Hypothesis R_reset : keeps R reset_input_buffer.
Hypothesis R_write : forall b, keeps R (ser_write b).
Hypothesis R_read : forall n, keeps R (ser_read n).
Hypothesis R_recv : forall n, keeps R (cli_recv n).
Hypothesis R_sendall : forall b, keeps R (cli_sendall b).
Hypothesis R_sendall_room : forall room b, keeps R (cli_sendall_room room b).
Hypothesis R_setblocking : forall b, keeps R (cli_setblocking b).

Lemma keeps_ret : forall A (a : A), keeps R (ret a).
Proof. intros A a w. apply R_refl. Qed.

Lemma keeps_raise : forall A e, keeps R (@raise A e).
Proof. intros A e w. apply R_refl. Qed.

Lemma keeps_or_raise : forall A e (o : option A), keeps R (or_raise e o).
Proof. intros A e [a|]; [apply keeps_ret | apply keeps_raise]. Qed.

Lemma keeps_now : keeps R now.
Proof. intros w. apply R_refl. Qed.

Lemma keeps_in_waiting : keeps R in_waiting.
Proof. intros w. apply R_refl. Qed.

Lemma keeps_blocked : forall A, keeps R (fun w => @Blocked A w).
Proof. intros A w. apply R_refl. Qed.

Lemma keeps_readline : keeps R ser_readline.
Proof.
  intros w. unfold ser_readline.
  destruct (line_length (rx w)); [apply R_read | apply R_refl].
Qed.

Lemma keeps_bind :
  forall A B (c : M A) (k : A -> M B),
    keeps R c -> (forall a, keeps R (k a)) -> keeps R (bind c k).
Proof.
  intros A B c k Hc Hk w. unfold bind.
  specialize (Hc w). destruct (c w) as [a w1|e w1|w1|]; try exact Hc.
  specialize (Hk a w1).
  destruct (k a w1) as [b w2|e w2|w2|]; try exact I;
    eapply R_trans; eassumption.
Qed.

Lemma keeps_loop :
  forall S T (body : S -> M (S + T)),
    (forall s, keeps R (body s)) ->
    forall fuel s, keeps R (loop fuel body s).
Proof.
  intros S T body Hb. induction fuel as [|fuel IH]; intros s.
  - intros w. exact I.
  - cbn [loop]. apply keeps_bind; [apply Hb|].
    intros [s'|v]; [apply IH | apply keeps_ret].
Qed.

Lemma keeps_rx_loop :
  forall S T (body : S -> M (S + T)),
    (forall s, keeps R (body s)) ->
    forall s, keeps R (fun w => loop (rx_fuel w) body s w).
Proof.
  intros S T body Hb s w. apply (keeps_loop _ _ body Hb (rx_fuel w) s w).
Qed.

Lemma keeps_try_finally :
  forall A (body : M A) (fin : M unit),
    keeps R body -> keeps R fin -> keeps R (try_finally body fin).
Proof.
  intros A body fin Hb Hf w. unfold try_finally.
  specialize (Hb w). destruct (body w) as [a w1|e w1|w1|]; try exact Hb.
  - pose proof (keeps_bind _ _ fin (fun _ => ret a) Hf
                  (fun _ => keeps_ret _ a) w1) as H.
    destruct (bind fin (fun _ => ret a) w1); try exact I;
      eapply R_trans; eassumption.
  - pose proof (keeps_bind _ _ fin (fun _ => @raise A e) Hf
                  (fun _ => keeps_raise A e) w1) as H.
    destruct (bind fin (fun _ => raise e) w1); try exact I;
      eapply R_trans; eassumption.
Qed.

Create HintDb kept.

#[local] Hint Resolve keeps_ret keeps_raise keeps_or_raise keeps_now
  keeps_in_waiting keeps_blocked keeps_readline R_sleep R_reset R_write
  R_read R_recv R_sendall R_sendall_room R_setblocking : kept.

Ltac kept_steps :=
  repeat (first
    [ solve [auto with kept]
    | progress intros
    | progress cbv beta
    | match goal with
      | |- keeps _ (bind _ _) => apply keeps_bind
      | |- keeps _ (fun w => loop (rx_fuel w) _ _ w) => apply keeps_rx_loop
      | |- keeps _ (loop _ _ _) => apply keeps_loop
      | |- keeps _ (if ?b then _ else _) => destruct b
      | |- keeps _ (match ?x with _ => _ end) => destruct x
      | |- keeps _ (let _ := _ in _) => cbv zeta
      end ]).

Lemma keeps_wait_for_rdy : keeps R _wait_for_rdy.
Proof. unfold _wait_for_rdy. kept_steps. unfold wait_for_rdy_turn. kept_steps. Qed.

Lemma keeps_send_at : forall cmd timeout, keeps R (_send_at cmd timeout).
Proof.
  intros. unfold _send_at, encode_or_raise. kept_steps.
  unfold send_at_turn. kept_steps.
Qed.

Lemma keeps_open_poll : forall m, keeps R (open_poll m).
Proof. intros. unfold open_poll. kept_steps. unfold open_poll_turn. kept_steps. Qed.

#[local] Hint Resolve keeps_wait_for_rdy keeps_send_at keeps_open_poll : kept.

Lemma keeps_open_tcp_direct_push :
  forall m host port, keeps R (open_tcp_direct_push m host port).
Proof. intros. unfold open_tcp_direct_push. kept_steps. Qed.

Lemma keeps_wait_for_prompt : keeps R _wait_for_prompt.
Proof.
  unfold _wait_for_prompt. kept_steps. unfold wait_for_prompt_turn. kept_steps.
Qed.

Lemma keeps_read_ack_line : keeps R read_ack_line.
Proof. unfold read_ack_line. kept_steps. unfold read_ack_turn. kept_steps. Qed.

#[local] Hint Resolve keeps_open_tcp_direct_push keeps_wait_for_prompt
  keeps_read_ack_line : kept.

Lemma keeps_send_raw : forall m data, keeps R (send_raw m data).
Proof. intros. unfold send_raw, encode_or_raise. kept_steps. Qed.

#[local] Hint Resolve keeps_send_raw : kept.

Lemma keeps_send_chunks : forall m data, keeps R (send_chunks m data).
Proof. intros. unfold send_chunks. kept_steps. unfold send_chunks_turn. kept_steps. Qed.

Lemma keeps_close_tcp : forall m, keeps R (close_tcp m).
Proof. intros. unfold close_tcp. kept_steps. Qed.

Lemma keeps_read_payload : forall len, keeps R (read_payload len).
Proof. intros. unfold read_payload. kept_steps. unfold read_payload_turn. kept_steps. Qed.

#[local] Hint Resolve keeps_send_chunks keeps_close_tcp keeps_read_payload
  : kept.

Lemma keeps_client_to_modem : forall m, keeps R (client_to_modem m).
Proof. intros. unfold client_to_modem. kept_steps. Qed.

Lemma keeps_modem_to_client : forall room, keeps R (modem_to_client room).
Proof. intros room. unfold modem_to_client. kept_steps. Qed.

#[local] Hint Resolve keeps_client_to_modem keeps_modem_to_client : kept.

Lemma keeps_relay_loop : forall m sel, keeps R (relay_loop m sel).
Proof.
  intros m. induction sel as [|[[c s] room] sel IH]; cbn [relay_loop];
    kept_steps.
Qed.

#[local] Hint Resolve keeps_relay_loop : kept.

Lemma keeps_connect_and_relay :
  forall m sel addr port, keeps R (connect_and_relay m sel addr port).
Proof. intros. unfold connect_and_relay. kept_steps. Qed.

Lemma keeps_read_address : forall atyp, keeps R (read_address atyp).
Proof. intros. unfold read_address. kept_steps. Qed.

Lemma keeps_read_port : keeps R read_port.
Proof. unfold read_port. kept_steps. Qed.

#[local] Hint Resolve keeps_connect_and_relay keeps_read_address
  keeps_read_port : kept.

Lemma keeps_serve_request :
  forall m sel cmd atyp, keeps R (serve_request m sel cmd atyp).
Proof. intros. unfold serve_request. kept_steps. Qed.

Lemma keeps_negotiate : keeps R negotiate.
Proof. unfold negotiate. kept_steps. Qed.

Lemma keeps_read_request_header : keeps R read_request_header.
Proof. unfold read_request_header. kept_steps. Qed.

#[local] Hint Resolve keeps_serve_request keeps_negotiate
  keeps_read_request_header : kept.

Lemma keeps_handle_client_body :
  forall m sel, keeps R (handle_client_body m sel).
Proof. intros. unfold handle_client_body. kept_steps. Qed.

End Kept.

(** ** The client socket is closed at the end, and only then *)

Lemma still_open_refl : forall w, still_open w w.
Proof.
  intros w. exists []. rewrite app_nil_r. split; [reflexivity | intros []].
Qed.

Lemma still_open_trans :
  forall a b c, still_open a b -> still_open b c -> still_open a c.
Proof.
  intros a b c (e1 & T1 & N1) (e2 & T2 & N2). exists (e1 ++ e2).
  rewrite T2, T1, <- app_assoc. split; [reflexivity|].
  intros H. apply in_app_or in H. tauto.
Qed.

Lemma still_open_emit :
  forall e w, e <> CliClose -> still_open w (emit e w).
Proof.
  intros e w He. exists [e]. split; [reflexivity|].
  intros [H|[]]. exact (He H).
Qed.

Lemma still_open_same_trace :
  forall w w', trace w' = trace w -> still_open w w'.
Proof.
  intros w w' H. exists []. rewrite app_nil_r. split; [exact H | intros []].
Qed.

Lemma still_open_sleep : forall d, keeps still_open (sleep d).
Proof. intros d w. apply still_open_same_trace. reflexivity. Qed.

Lemma still_open_reset : keeps still_open reset_input_buffer.
Proof. intros w. exists [SerReset (map snd (arrived (clock w) (rx w)))].
  split; [reflexivity|]. intros [H|[]]. discriminate. Qed.

Lemma still_open_write : forall b, keeps still_open (ser_write b).
Proof. intros b w. apply still_open_emit. discriminate. Qed.

Lemma still_open_read : forall n, keeps still_open (ser_read n).
Proof.
  intros n w. destruct (ser_read_cases n w) as [(b & w' & H)|H]; rewrite H.
  - pose proof (ser_read_ret _ _ _ _ H) as (_ & _ & _ & _ & Htr & _).
    exists [SerRead b]. split; [exact Htr|]. intros [E|[]]. discriminate.
  - apply still_open_refl.
Qed.

Lemma still_open_recv : forall n, keeps still_open (cli_recv n).
Proof.
  intros n w. unfold cli_recv.
  destruct n; [apply still_open_emit; discriminate|].
  destruct (cin w) as [|[|x seg] rest].
  - destruct (cblocking w); apply still_open_refl.
  - apply still_open_emit. discriminate.
  - eexists. split; [reflexivity|]. intros [E|[]]. discriminate.
Qed.

Lemma still_open_sendall : forall b, keeps still_open (cli_sendall b).
Proof.
  intros b w. rewrite cli_sendall_eq. apply still_open_emit. discriminate.
Qed.

Lemma still_open_sendall_room :
  forall room b, keeps still_open (cli_sendall_room room b).
Proof.
  intros room b w. unfold cli_sendall_room.
  destruct ((length b <=? room)%nat || cblocking w);
    apply still_open_emit; discriminate.
Qed.

Lemma still_open_setblocking : forall b, keeps still_open (cli_setblocking b).
Proof. intros b w. apply still_open_same_trace. reflexivity. Qed.

(** X4.  Whenever [handle_client] returns or raises, the last thing it has done
    is to close the client socket, and it has closed it once: nothing is
    closed before the [finally].  When it is blocked, the socket is still
    open. *)
Theorem client_socket_closed_last_and_once :
  forall m sel w,
    match handle_client m sel w with
    | Ret _ w' | Raise _ w' =>
      exists evs, trace w' = trace w ++ evs ++ [CliClose] /\ ~ In CliClose evs
    | Blocked w' => still_open w w'
    | OutOfFuel => False
    end.
Proof.
  intros m sel w.
  pose proof (tame_handle_client m sel w) as Ht.
  pose proof (keeps_handle_client_body still_open still_open_refl
                still_open_trans still_open_sleep still_open_reset
                still_open_write still_open_read still_open_recv
                still_open_sendall still_open_sendall_room
                still_open_setblocking m sel w) as Hk.
  unfold handle_client, try_finally in *.
  fold (handle_client_body m sel) in *.
  destruct (handle_client_body m sel w) as [a w1|e w1|w1|].
  - destruct Hk as (evs & T & N). exists evs.
    cbn. rewrite T, <- app_assoc. split; [reflexivity | exact N].
  - destruct Hk as (evs & T & N). exists evs.
    cbn. rewrite T, <- app_assoc. split; [reflexivity | exact N].
  - exact Hk.
  - exact Ht.
Qed.

(** ** Text: ASCII, digits, fields *)

Lemma decode_ignore_ascii :
  forall b, forallb is_ascii b = true -> decode_ignore b = b.
Proof.
  unfold decode_ignore.
  induction b as [|c b IH]; intros H; [reflexivity|].
  cbn [forallb] in H. apply andb_prop in H. destruct H as [Hc Hb].
  unfold is_ascii in Hc. apply andb_prop in Hc. destruct Hc as [_ Hc].
  cbn [utf8_items]. change 0x80 with 128. rewrite Hc. cbn [somes].
  rewrite (IH Hb). reflexivity.
Qed.

Lemma decode_strict_ascii :
  forall b, forallb is_ascii b = true -> decode_strict b = Some b.
Proof.
  unfold decode_strict.
  induction b as [|c b IH]; intros H; [reflexivity|].
  cbn [forallb] in H. apply andb_prop in H. destruct H as [Hc Hb].
  unfold is_ascii in Hc. apply andb_prop in Hc. destruct Hc as [_ Hc].
  cbn [utf8_items]. change 0x80 with 128. rewrite Hc. cbn [all_some].
  rewrite (IH Hb). reflexivity.
Qed.

Lemma list_eqb_refl : forall s, list_eqb s s = true.
Proof.
  induction s as [|c s IH]; [reflexivity|]. cbn [list_eqb].
  rewrite Z.eqb_refl, IH. reflexivity.
Qed.

Lemma list_eqb_eq : forall a b, list_eqb a b = true -> a = b.
Proof.
  induction a as [|x a IH]; intros [|y b] H; try discriminate; [reflexivity|].
  cbn [list_eqb] in H. apply andb_prop in H. destruct H as [H1 H2].
  apply Z.eqb_eq in H1. subst y. rewrite (IH _ H2). reflexivity.
Qed.

Lemma startswith_self_app : forall p s, startswith p (p ++ s) = true.
Proof.
  induction p as [|c p IH]; intros s; [destruct s; reflexivity|].
  cbn [startswith app]. rewrite Z.eqb_refl, IH. reflexivity.
Qed.

Lemma contains_inside : forall a p b, contains p (a ++ p ++ b) = true.
Proof.
  induction a as [|c a IH]; intros p b.
  - cbn [app]. destruct (p ++ b) eqn:E.
    + cbn [contains]. rewrite <- E, startswith_self_app. reflexivity.
    + cbn [contains]. rewrite <- E, startswith_self_app. reflexivity.
  - cbn [app contains]. rewrite IH. apply orb_true_r.
Qed.

Lemma startswith_length :
  forall p s, startswith p s = true -> (length p <= length s)%nat.
Proof.
  induction p as [|c p IH]; intros [|y s] H; simpl in *; try lia; try discriminate.
  apply andb_prop in H. destruct H as [_ H]. apply IH in H. lia.
Qed.

Lemma contains_length :
  forall p s, contains p s = true -> (length p <= length s)%nat.
Proof.
  intros p. induction s as [|y s IH]; intros H; cbn [contains] in H.
  - rewrite orb_false_r in H. exact (startswith_length _ _ H).
  - apply orb_prop in H. destruct H as [H|H].
    + exact (startswith_length _ _ H).
    + apply IH in H. simpl. lia.
Qed.

(** *** White space at the ends *)

Lemma lstrip_keep :
  forall c s, is_space c = false -> lstrip (c :: s) = c :: s.
Proof. intros c s H. cbn [lstrip]. rewrite H. reflexivity. Qed.

Lemma rstrip_keep :
  forall s d, is_space d = false -> rstrip (s ++ [d]) = s ++ [d].
Proof.
  intros s d Hd. unfold rstrip. rewrite rev_app_distr. cbn [rev app lstrip].
  rewrite Hd. cbn [rev]. rewrite rev_involutive. reflexivity.
Qed.

Lemma rstrip_drop :
  forall s x, is_space x = true -> rstrip (s ++ [x]) = rstrip s.
Proof.
  intros s x Hx. unfold rstrip. rewrite rev_app_distr. cbn [rev app lstrip].
  rewrite Hx. reflexivity.
Qed.

Lemma strip_plain :
  forall c body d,
    is_space c = false -> is_space d = false ->
    strip ((c :: body) ++ [d]) = (c :: body) ++ [d].
Proof.
  intros c body d Hc Hd. unfold strip.
  cbn [app]. rewrite (lstrip_keep _ _ Hc).
  exact (rstrip_keep (c :: body) d Hd).
Qed.

Lemma strip_crlf :
  forall c body d,
    is_space c = false -> is_space d = false ->
    strip ((c :: body) ++ [d] ++ CRLF) = (c :: body) ++ [d].
Proof.
  intros c body d Hc Hd. unfold strip.
  cbn [app]. rewrite (lstrip_keep _ _ Hc).
  change (c :: body ++ d :: CRLF) with ((c :: body) ++ [d] ++ [13] ++ [10]).
  rewrite !app_assoc.
  rewrite rstrip_drop by reflexivity. rewrite rstrip_drop by reflexivity.
  apply rstrip_keep. exact Hd.
Qed.

(** *** The last field *)

Lemma split_from_no_sep :
  forall sep f cur,
    ~ In sep f -> split_from sep cur f = [rev cur ++ f].
Proof.
  intros sep. induction f as [|c f IH]; intros cur H.
  - cbn [split_from]. rewrite app_nil_r. reflexivity.
  - cbn [split_from].
    destruct (Z.eqb_spec c sep) as [->|Hne]; [exfalso; apply H; left; reflexivity|].
    rewrite IH by (intros E; apply H; right; exact E).
    cbn [rev]. rewrite <- app_assoc. reflexivity.
Qed.

Lemma last_field_split :
  forall sep pre f cur,
    ~ In sep f ->
    last_field (split_from sep cur (pre ++ sep :: f)) = f.
Proof.
  intros sep. induction pre as [|c pre IH]; intros f cur H.
  - cbn [app split_from]. rewrite Z.eqb_refl.
    rewrite (split_from_no_sep _ _ _ H). reflexivity.
  - cbn [app split_from]. destruct (c =? sep).
    + unfold last_field in *. cbn [last].
      specialize (IH f [] H).
      destruct (split_from sep [] (pre ++ sep :: f)) eqn:E; [|exact IH].
      exfalso. clear - E. revert E. generalize (@nil Z) at 1.
      induction pre as [|x pre IHp]; intros cur; cbn [app split_from].
      * rewrite Z.eqb_refl. discriminate.
      * destruct (x =? sep); [discriminate | apply IHp].
    + apply IH. exact H.
Qed.

(** *** Integers in decimal *)

Lemma uint_digits :
  forall u, forallb is_digit (lit (NilEmpty.string_of_uint u)) = true.
Proof. induction u; simpl; try reflexivity; exact IHu. Qed.

Lemma digit_not_space : forall c, is_digit c = true -> is_space c = false.
Proof.
  intros c H. unfold is_digit in H. apply andb_prop in H.
  destruct H as [H1 H2]. apply Z.leb_le in H1. apply Z.leb_le in H2.
  unfold is_space.
  repeat match goal with
         | |- context [?a <=? ?b] => destruct (Z.leb_spec a b); try lia
         | |- context [?a =? ?b] => destruct (Z.eqb_spec a b); try lia
         end; reflexivity.
Qed.

Lemma digits_from_acc :
  forall u acc,
    digits_from (Z.pos acc) true (lit (NilEmpty.string_of_uint u)) =
    Some (Z.pos (Pos.of_uint_acc u acc)).
Proof.
  induction u; intros acc; cbn [NilEmpty.string_of_uint Pos.of_uint_acc];
    [reflexivity | ..];
    change (lit (String ?a ?s)) with (Z.of_N (Byte.to_N (byte_of_ascii a)) :: lit s);
    cbn [digits_from];
    match goal with
    | |- context [is_digit ?c] => change (is_digit c) with true
    end; cbn iota;
    rewrite <- IHu; f_equal;
    rewrite ?Pos2Z.inj_add, ?Pos2Z.inj_mul;
    match goal with
    | |- context [Z.of_N ?x] =>
      let v := eval vm_compute in (Z.of_N x) in change (Z.of_N x) with v
    end; lia.
Qed.

Lemma digits_from_zero :
  forall u b,
    (u <> Decimal.Nil \/ b = true) ->
    digits_from 0 b (lit (NilEmpty.string_of_uint u)) =
    Some (Z.of_N (Pos.of_uint u)).
Proof.
  induction u; intros b H; cbn [NilEmpty.string_of_uint Pos.of_uint].
  - destruct H as [H | ->]; [congruence | reflexivity].
  - change (lit (String ?a ?s)) with (Z.of_N (Byte.to_N (byte_of_ascii a)) :: lit s).
    cbn [digits_from].
    match goal with
    | |- context [is_digit ?c] => change (is_digit c) with true
    end. cbn iota.
    apply IHu. right. reflexivity.
  - exact (digits_from_acc u 1).
  - exact (digits_from_acc u 2).
  - exact (digits_from_acc u 3).
  - exact (digits_from_acc u 4).
  - exact (digits_from_acc u 5).
  - exact (digits_from_acc u 6).
  - exact (digits_from_acc u 7).
  - exact (digits_from_acc u 8).
  - exact (digits_from_acc u 9).
Qed.

Lemma strip_id :
  forall s, (forall c, In c s -> is_space c = false) -> strip s = s.
Proof.
  intros [|c s] H; [reflexivity|].
  unfold strip. rewrite lstrip_keep by (apply H; left; reflexivity).
  destruct (exists_last (l := c :: s)) as (s' & d & E); [discriminate|].
  rewrite E. apply rstrip_keep. apply H. rewrite E.
  apply in_or_app. right. left. reflexivity.
Qed.

Lemma forallb_In :
  forall (f : Z -> bool) s c, forallb f s = true -> In c s -> f c = true.
Proof. intros f s c H Hin. rewrite forallb_forall in H. exact (H c Hin). Qed.

Lemma str_of_int_pos :
  forall p,
    str_of_int (Z.pos p) = lit (NilEmpty.string_of_uint (Pos.to_uint p)).
Proof.
  intros p. unfold str_of_int. cbn [Z.to_int NilZero.string_of_int].
  unfold NilZero.string_of_uint.
  pose proof (DecimalPos.Unsigned.to_uint_nonnil p) as H.
  destruct (Pos.to_uint p); [congruence | reflexivity ..].
Qed.

Lemma str_of_int_neg :
  forall p,
    str_of_int (Z.neg p) = 45 :: lit (NilEmpty.string_of_uint (Pos.to_uint p)).
Proof.
  intros p. unfold str_of_int. cbn [Z.to_int NilZero.string_of_int].
  unfold NilZero.string_of_uint.
  pose proof (DecimalPos.Unsigned.to_uint_nonnil p) as H.
  destruct (Pos.to_uint p); [congruence | reflexivity ..].
Qed.

Lemma uint_nonempty :
  forall u, u <> Decimal.Nil -> lit (NilEmpty.string_of_uint u) <> [].
Proof. intros u H. destruct u; [congruence | discriminate ..]. Qed.

Lemma to_ascii_decimal_digits :
  forall s, forallb is_digit s = true -> to_ascii_decimal s = Some s.
Proof.
  induction s as [|c s IH]; intros H; [reflexivity|].
  cbn [forallb] in H. apply andb_prop in H. destruct H as [Hc Hs].
  cbn [to_ascii_decimal]. rewrite (IH Hs).
  unfold is_digit in Hc. apply andb_prop in Hc. destruct Hc as [_ Hc].
  apply Z.leb_le in Hc.
  destruct (Z.ltb_spec c 127); [reflexivity | lia].
Qed.

Lemma digit_not_c_space : forall c, is_digit c = true -> is_c_space c = false.
Proof.
  intros c H. unfold is_digit in H. apply andb_prop in H.
  destruct H as [H1 H2]. apply Z.leb_le in H1. apply Z.leb_le in H2.
  unfold is_c_space.
  destruct (Z.leb_spec 9 c); destruct (Z.leb_spec c 13);
    destruct (Z.eqb_spec c 32); try lia; reflexivity.
Qed.

Lemma skip_c_space_digits :
  forall s, forallb is_digit s = true -> skip_c_space s = s.
Proof.
  intros [|c s] H; [reflexivity|].
  cbn [forallb] in H. apply andb_prop in H. destruct H as [Hc _].
  cbn [skip_c_space]. rewrite (digit_not_c_space c Hc). reflexivity.
Qed.

Lemma filter_all :
  forall (f : Z -> bool) s, forallb f s = true -> filter f s = s.
Proof.
  intros f. induction s as [|c s IH]; intros H; [reflexivity|].
  cbn [forallb] in H. apply andb_prop in H. destruct H as [Hc Hs].
  cbn [filter]. rewrite Hc, (IH Hs). reflexivity.
Qed.

(** [int] of a run of ASCII digits within the limit on their number. *)
Lemma int_of_digits :
  forall s,
    forallb is_digit s = true -> s <> [] ->
    (length s <= MAX_STR_DIGITS)%nat ->
    int_of_str s = digits_from 0 false s.
Proof.
  intros s Hd Hne Hlen. unfold int_of_str.
  rewrite (to_ascii_decimal_digits s Hd), (skip_c_space_digits s Hd).
  rewrite skip_c_space_digits, rev_involutive.
  2:{ apply forallb_forall. intros c Hc. apply in_rev in Hc.
      exact (forallb_In _ _ _ Hd Hc). }
  destruct s as [|c s']; [congruence|].
  assert (Hc : is_digit c = true)
    by (apply (forallb_In _ _ _ Hd); left; reflexivity).
  unfold is_digit in Hc. apply andb_prop in Hc. destruct Hc as [H1 H2].
  apply Z.leb_le in H1. apply Z.leb_le in H2.
  destruct (Z.eqb_spec c 45); [lia|]. destruct (Z.eqb_spec c 43); [lia|].
  unfold limited_digits. rewrite (filter_all _ _ Hd).
  destruct (Nat.ltb_spec MAX_STR_DIGITS (length (c :: s'))); [lia | reflexivity].
Qed.

(** What an f-string writes for a natural number, [int] reads back, as long
    as it has no more digits than [int] accepts. *)
Lemma int_of_str_of_nat :
  forall n,
    (length (str_of_int (Z.of_nat n)) <= MAX_STR_DIGITS)%nat ->
    int_of_str (str_of_int (Z.of_nat n)) = Some (Z.of_nat n).
Proof.
  intros n Hlen. destruct (Z.of_nat n) as [|p|p] eqn:E; try lia.
  - reflexivity.
  - rewrite str_of_int_pos in *.
    rewrite int_of_digits.
    + rewrite digits_from_zero, DecimalPos.Unsigned.of_to; [reflexivity|].
      left. apply DecimalPos.Unsigned.to_uint_nonnil.
    + apply uint_digits.
    + apply uint_nonempty, DecimalPos.Unsigned.to_uint_nonnil.
    + exact Hlen.
Qed.

(** The decimal writing of a natural number: digits, and at least one. *)
Lemma str_of_nat_digits :
  forall n,
    forallb is_digit (str_of_int (Z.of_nat n)) = true /\
    str_of_int (Z.of_nat n) <> [].
Proof.
  intros n. destruct (Z.of_nat n) as [|p|p] eqn:E; try lia.
  - split; [reflexivity | discriminate].
  - rewrite str_of_int_pos. split; [apply uint_digits|].
    apply uint_nonempty, DecimalPos.Unsigned.to_uint_nonnil.
Qed.

Lemma digits_avoid :
  forall s x,
    forallb is_digit s = true -> is_digit x = false -> ~ In x s.
Proof.
  intros s x H Hx Hin. rewrite (forallb_In _ _ _ H Hin) in Hx. discriminate.
Qed.

(** ** The modem-to-client branch, case by case *)

Lemma sent_app : forall a b, sent (a ++ b) = sent a ++ sent b.
Proof.
  induction a as [|e a IH]; intros b; [reflexivity|].
  destruct e; cbn [sent app]; rewrite IH; try reflexivity;
    rewrite app_assoc; reflexivity.
Qed.

Lemma consumed_app : forall a b, consumed (a ++ b) = consumed a ++ consumed b.
Proof.
  induction a as [|e a IH]; intros b; [reflexivity|].
  destruct e; cbn [consumed app]; rewrite IH; try reflexivity;
    rewrite app_assoc; reflexivity.
Qed.

Lemma written_app : forall a b, written (a ++ b) = written a ++ written b.
Proof.
  induction a as [|e a IH]; intros b; [reflexivity|].
  destruct e; cbn [written app]; rewrite IH; try reflexivity;
    rewrite app_assoc; reflexivity.
Qed.

(** The branch once it has read its line. *)
Lemma modem_to_client_after_line :
  forall room w hdr tail,
    rx w = hdr ++ tail ->
    line_length hdr = Some (length hdr) ->
    exists w1,
      rx w1 = tail /\ trace w1 = trace w ++ [SerRead (map snd hdr)] /\
      cin w1 = cin w /\ cblocking w1 = cblocking w /\
      modem_to_client room w =
      (let line := strip (decode_ignore (map snd hdr)) in
       if startswith (lit "+QIURC") line && contains (lit "recv") line then
         len <- or_raise ValueError (int_of_str (last_field (split 44 line))) ;;
         payload <- read_payload len ;;
         cli_sendall_room room payload ;;;
         ret Continue
       else if contains (lit "closed") line then ret Break
       else ret Continue) w1.
Proof.
  intros room w hdr tail Hrx Hline.
  destruct (ser_read_app w hdr tail Hrx) as (w1 & Hr & Hrx1 & Htr1 & Hc1 & Hc2).
  exists w1. repeat split; try assumption.
  unfold modem_to_client. unfold bind at 1. unfold ser_readline.
  rewrite Hrx, (line_length_app _ tail Hline), Hr. reflexivity.
Qed.

(** The loop that reads the payload: nothing for a length that is not
    positive; otherwise the next [len] bytes in one read, or a read that
    never returns. *)
Lemma read_payload_spec :
  forall len w,
    if len <=? 0 then read_payload len w = Ret [] w
    else if (Z.to_nat len <=? length (rx w))%nat then
      exists w',
        read_payload len w = Ret (map snd (firstn (Z.to_nat len) (rx w))) w' /\
        rx w' = skipn (Z.to_nat len) (rx w) /\
        trace w' = trace w ++ [SerRead (map snd (firstn (Z.to_nat len) (rx w)))] /\
        cin w' = cin w /\ cblocking w' = cblocking w
    else read_payload len w = Blocked w.
Proof.
  intros len w.
  assert (Hturn : read_payload len w =
                  bind (read_payload_turn len [])
                       (fun r => match r with
                                 | inl s' => loop (length (rx w)) (read_payload_turn len) s'
                                 | inr v => ret v
                                 end) w) by reflexivity.
  rewrite Hturn. clear Hturn.
  unfold bind at 1 2 3. unfold read_payload_turn at 1 3 5. cbn [length].
  change (Z.of_nat 0) with 0. rewrite Z.sub_0_r.
  destruct (Z.leb_spec len 0) as [Hle|Hgt].
  - destruct (Z.ltb_spec 0 len); [lia | reflexivity].
  - destruct (Z.ltb_spec 0 len); [|lia].
    unfold bind.
    set (n := Z.to_nat len).
    destruct (Nat.leb_spec n (length (rx w))) as [Hn|Hn].
    + assert (Hsplit : rx w = firstn n (rx w) ++ skipn n (rx w))
        by (rewrite firstn_skipn; reflexivity).
      destruct (ser_read_app w _ _ Hsplit) as (w2 & Hr2 & Hrx2 & Htr2 & Hc1 & Hc2).
      rewrite length_firstn, Nat.min_l in Hr2 by exact Hn.
      exists w2. rewrite Hr2. unfold ret at 1.
      destruct (length (rx w)) as [|k] eqn:Hk; [unfold n in Hn; lia|].
      cbn [loop]. unfold bind at 1. unfold read_payload_turn at 1. cbn [app].
      match goal with
      | |- context [Z.of_nat ?l <? _] => assert (Hlen : Z.of_nat l = len)
      end.
      { rewrite length_map, length_firstn, Hk, Nat.min_l by exact Hn.
        unfold n. lia. }
      rewrite Hlen, Z.ltb_irrefl. unfold ret.
      repeat split; assumption.
    + unfold ser_read.
      destruct (Nat.ltb_spec (length (rx w)) n) as [_|H']; [reflexivity | lia].
Qed.

(** *** A line of the modem that announces data *)

Lemma line_length_bytes :
  forall (hdr : list (Z * byte)) body,
    map snd hdr = body ++ [10] -> ~ In 10 body ->
    line_length hdr = Some (length hdr).
Proof.
  induction hdr as [|[t b] hdr IH]; intros body E Hno.
  - destruct body; discriminate.
  - destruct body as [|c body]; cbn [map snd app] in E.
    + inversion E as [[H1 H2]]. destruct hdr; [reflexivity | discriminate].
    + inversion E as [[H1 H2]]. cbn [line_length].
      destruct (Z.eqb_spec c 10) as [->|Hc]; [exfalso; apply Hno; left; reflexivity|].
      rewrite (IH body H2) by (intros H; apply Hno; right; exact H).
      reflexivity.
Qed.

Lemma strip_line_crlf :
  forall c s' s'' d,
    c :: s' = s'' ++ [d] ->
    is_space c = false -> is_space d = false ->
    strip ((c :: s') ++ CRLF) = c :: s'.
Proof.
  intros c s' s'' d E Hc Hd. unfold strip.
  cbn [app]. rewrite (lstrip_keep _ _ Hc).
  change (c :: s' ++ CRLF) with ((c :: s') ++ [13] ++ [10]).
  rewrite app_assoc.
  rewrite rstrip_drop by reflexivity. rewrite rstrip_drop by reflexivity.
  rewrite E. apply rstrip_keep. exact Hd.
Qed.

Lemma digit_is_ascii :
  forall s, forallb is_digit s = true -> forallb is_ascii s = true.
Proof.
  intros s H. apply forallb_forall. intros c Hc.
  pose proof (forallb_In _ _ _ H Hc) as Hc'.
  unfold is_digit in Hc'. apply andb_prop in Hc'. destruct Hc' as [H1 H2].
  apply Z.leb_le in H1. apply Z.leb_le in H2. unfold is_ascii.
  destruct (Z.leb_spec 0 c); [|lia].
  destruct (Z.ltb_spec c 128); [reflexivity | lia].
Qed.

Lemma recv_line_ascii :
  forall sid n, forallb is_ascii (recv_line sid n) = true.
Proof.
  intros sid n. unfold recv_line. rewrite !forallb_app.
  rewrite (digit_is_ascii _ (proj1 (str_of_nat_digits sid))).
  rewrite (digit_is_ascii _ (proj1 (str_of_nat_digits n))).
  reflexivity.
Qed.

Lemma recv_line_no_line_feed :
  forall sid n, ~ In 10 (recv_line sid n ++ [13]).
Proof.
  intros sid n H. unfold recv_line in H. rewrite !in_app_iff in H.
  pose proof (proj1 (str_of_nat_digits sid)) as Hs.
  pose proof (proj1 (str_of_nat_digits n)) as Hn.
  repeat destruct H as [H|H];
    first [ exact (digits_avoid _ 10 Hs eq_refl H)
          | exact (digits_avoid _ 10 Hn eq_refl H)
          | vm_compute in H; intuition discriminate ].
Qed.

Lemma recv_line_strip :
  forall sid n,
    strip (decode_ignore (recv_header sid n)) = recv_line sid n.
Proof.
  intros sid n. unfold recv_header.
  rewrite decode_ignore_ascii
    by (rewrite forallb_app, recv_line_ascii; reflexivity).
  destruct (str_of_nat_digits n) as [Hn Hne].
  destruct (exists_last Hne) as (ds & d & En).
  assert (Hd : is_digit d = true).
  { apply (forallb_In _ _ _ Hn). rewrite En. apply in_or_app.
    right. left. reflexivity. }
  assert (E : recv_line sid n =
              43 :: lit "QIURC: " ++ DQUOTE ++ lit "recv" ++ DQUOTE ++ lit "," ++
              str_of_int (Z.of_nat sid) ++ lit "," ++ str_of_int (Z.of_nat n))
    by reflexivity.
  rewrite E.
  apply (strip_line_crlf 43 _
           ((43 :: lit "QIURC: " ++ DQUOTE ++ lit "recv" ++ DQUOTE ++ lit "," ++
             str_of_int (Z.of_nat sid) ++ lit ",") ++ ds) d).
  - rewrite En. cbn [app]. rewrite <- !app_assoc. reflexivity.
  - reflexivity.
  - apply digit_not_space. exact Hd.
Qed.

(** The announcement is read as the program reads it: it starts with
    [+QIURC], holds [recv], and its last field is the length. *)
Lemma recv_line_parses :
  forall sid n,
    (length (str_of_int (Z.of_nat n)) <= MAX_STR_DIGITS)%nat ->
    startswith (lit "+QIURC") (recv_line sid n) = true /\
    contains (lit "recv") (recv_line sid n) = true /\
    int_of_str (last_field (split 44 (recv_line sid n))) = Some (Z.of_nat n).
Proof.
  intros sid n Hlen. split; [|split].
  - change (recv_line sid n) with
      (lit "+QIURC" ++ (lit ": " ++ DQUOTE ++ lit "recv" ++ DQUOTE ++ lit "," ++
       str_of_int (Z.of_nat sid) ++ lit "," ++ str_of_int (Z.of_nat n))).
    apply startswith_self_app.
  - change (recv_line sid n) with
      ((lit "+QIURC: " ++ DQUOTE) ++ lit "recv" ++ (DQUOTE ++ lit "," ++
       str_of_int (Z.of_nat sid) ++ lit "," ++ str_of_int (Z.of_nat n))).
    apply contains_inside.
  - assert (E : recv_line sid n =
                (lit "+QIURC: " ++ DQUOTE ++ lit "recv" ++ DQUOTE ++ lit "," ++
                 str_of_int (Z.of_nat sid)) ++ 44 :: str_of_int (Z.of_nat n)).
    { unfold recv_line. rewrite <- !app_assoc. reflexivity. }
    rewrite E. unfold split. rewrite last_field_split.
    + apply int_of_str_of_nat. exact Hlen.
    + apply (digits_avoid _ 44 (proj1 (str_of_nat_digits n))). reflexivity.
Qed.



(** X6.  The announcement the modem makes in direct push mode, for any socket
    and any payload, followed by that payload: the length written in
    decimal is read back by [int] (a length of up to 4300 digits), the branch
    consumes the announcement and the payload, nothing after them, and, when
    the client socket is blocking or can take the payload, sends the client
    the payload, whatever bytes it is made of.  It writes nothing to the
    modem. *)
Theorem announced_payload_reaches_client :
  forall room w hdr body rest sid,
    rx w = hdr ++ body ++ rest ->
    map snd hdr = recv_header sid (length body) ->
    (length (str_of_int (Z.of_nat (length body))) <= MAX_STR_DIGITS)%nat ->
    cblocking w = true \/ (length body <= room)%nat ->
    exists w',
      modem_to_client room w = Ret Continue w' /\
      rx w' = rest /\
      sent (trace w') = sent (trace w) ++ map snd body /\
      consumed (trace w') =
        consumed (trace w) ++ recv_header sid (length body) ++ map snd body /\
      written (trace w') = written (trace w).
Proof.
  intros room w hdr body rest sid Hrx Hhdr Hdig Hroom.
  assert (Hline : line_length hdr = Some (length hdr)).
  { apply (line_length_bytes hdr (recv_line sid (length body) ++ [13])).
    - rewrite Hhdr. unfold recv_header. rewrite <- app_assoc. reflexivity.
    - apply recv_line_no_line_feed. }
  destruct (modem_to_client_after_line room w hdr (body ++ rest) Hrx Hline)
    as (w1 & Hrx1 & Htr1 & _ & Hb1 & E).
  cbv zeta in E. rewrite Hhdr, recv_line_strip in E.
  destruct (recv_line_parses sid (length body) Hdig) as (Hs & Hc & Hi).
  rewrite Hs, Hc, Hi in E. cbn [andb] in E. rewrite E. clear E.
  unfold bind at 1. cbn [or_raise]. unfold ret at 1. unfold bind at 1.
  pose proof (read_payload_spec (Z.of_nat (length body)) w1) as P.
  rewrite Hrx1 in P.
  assert (Hsend : forall w2,
             cblocking w2 = cblocking w ->
             cli_sendall_room room (map snd body) w2 =
             Ret tt (emit (CliSend (map snd body)) w2)).
  { intros w2 Hb2. unfold cli_sendall_room. rewrite Hb2, length_map.
    destruct Hroom as [Hb|Hr]; [rewrite Hb, orb_true_r; reflexivity|].
    destruct (Nat.leb_spec (length body) room); [|lia].
    reflexivity. }
  destruct body as [|b body].
  - cbn [length Z.of_nat] in P. change (0 <=? 0) with true in P. cbv iota in P.
    cbn [length Z.of_nat]. rewrite P.
    unfold bind at 1.
    change (cli_sendall_room room [] w1)
      with (cli_sendall_room room (map snd (@nil (Z * byte))) w1).
    rewrite (Hsend w1 Hb1). unfold ret.
    eexists. split; [reflexivity|]. cbn [rx trace emit].
    rewrite Htr1, <- app_assoc, !sent_app, !consumed_app, !written_app.
    cbn [sent consumed written map app]. rewrite Hhdr, !app_nil_r.
    repeat split; try reflexivity. exact Hrx1.
  - destruct (Z.leb_spec (Z.of_nat (length (b :: body))) 0) as [H|_];
      [cbn [length] in H; lia|].
    rewrite Nat2Z.id in P.
    destruct (Nat.leb_spec (length (b :: body)) (length ((b :: body) ++ rest)))
      as [_|H]; [|rewrite length_app in H; lia].
    destruct P as (w2 & P & Hrx2 & Htr2 & _ & Hb2). rewrite P.
    rewrite firstn_app, Nat.sub_diag, firstn_all in Htr2.
    rewrite skipn_app, Nat.sub_diag, skipn_all in Hrx2.
    cbn [firstn skipn] in Htr2, Hrx2. rewrite app_nil_r in Htr2.
    rewrite firstn_app, Nat.sub_diag, firstn_all. cbn [firstn].
    rewrite app_nil_r.
    unfold bind at 1. rewrite (Hsend w2) by congruence. unfold ret.
    eexists. split; [reflexivity|]. cbn [rx trace emit].
    rewrite Htr2, Htr1, <- !app_assoc, !sent_app, !consumed_app, !written_app.
    cbn [sent consumed written app]. rewrite Hhdr, !app_nil_r.
    repeat split; try reflexivity. exact Hrx2.
Qed.

Lemma announced_payload_reaches_client_witness :
  let payload := lit "HTTP/1.0 200 OK" ++ CRLF in
  let hdr := recv_header 0 17 in
  exists w',
    modem_to_client 17
      (mkWorld 0 (modem_says 4 hdr ++ modem_says 4 payload ++ modem_says 9 (lit "x"))
               [] false [])
    = Ret Continue w' /\
    rx w' = modem_says 9 (lit "x") /\
    sent (trace w') = payload.
Proof.
  destruct (announced_payload_reaches_client 17%nat
              (mkWorld 0 (modem_says 4 (recv_header 0 17) ++
                          modem_says 4 (lit "HTTP/1.0 200 OK" ++ CRLF) ++
                          modem_says 9 (lit "x")) [] false [])
              (modem_says 4 (recv_header 0 17))
              (modem_says 4 (lit "HTTP/1.0 200 OK" ++ CRLF))
              (modem_says 9 (lit "x")) 0%nat eq_refl eq_refl)
    as (w' & H1 & H2 & H3 & _).
  - vm_compute. lia.
  - right. vm_compute. lia.
  - exists w'. repeat split; assumption.
Defined.

(** ** Start-up, greeting, and the end of the relay *)

(** X7.  [QuectelModem.__init__] writes nothing until it has read a line that
    says RDY; then it empties the input buffer and writes ATE0, once, and
    reads the answer.  It raises nothing.  When it is blocked, either no RDY
    line has come and nothing was written, or ATE0 was written and the
    modem's stream ran dry before an answer was complete. *)
Theorem init_waits_for_banner_then_disables_echo :
  forall cid sock_id w,
    match QuectelModem_init cid sock_id w with
    | Ret m w' =>
      m = mkModem cid sock_id /\
      exists lines raw junk reads,
        Forall (fun l => says_rdy l = false) lines /\ says_rdy raw = true /\
        trace w' = trace w ++ map SerRead (lines ++ [raw])
                   ++ SerReset junk :: SerWrite (lit "ATE0" ++ CR)
                   :: map SerRead reads
    | Blocked w' =>
      (exists lines,
         Forall (fun l => says_rdy l = false) lines /\
         trace w' = trace w ++ map SerRead lines /\
         ~ In 10 (map snd (rx w')))
      \/
      (exists lines raw junk reads,
         says_rdy raw = true /\
         trace w' = trace w ++ map SerRead (lines ++ [raw])
                    ++ SerReset junk :: SerWrite (lit "ATE0" ++ CR)
                    :: map SerRead reads /\
         rx w' = [])
    | Raise _ _ => False
    | OutOfFuel => False
    end.
Proof.
  intros cid sock_id w. unfold QuectelModem_init. unfold bind at 1.
  pose proof (wait_for_rdy_loop_spec (rx_fuel w) w (Nat.lt_succ_diag_r _)) as Hw.
  change (loop (rx_fuel w) wait_for_rdy_turn tt w) with (_wait_for_rdy w) in Hw.
  destruct (_wait_for_rdy w) as [[] w1|e w1|w1|]; try contradiction.
  - destruct Hw as (lines & raw & T1 & _ & _ & N & Y).
    unfold bind at 1.
    pose proof (send_at_spec (lit "ATE0") 2000 w1) as Hs. cbv zeta in Hs.
    destruct (_send_at (lit "ATE0") 2000 w1) as [resp w2|e w2|w2|].
    + destruct Hs as (out & reads & Henc & T2 & _).
      unfold ret. split; [reflexivity|].
      exists lines, raw, (map snd (arrived (clock w1) (rx w1))), reads.
      repeat split; try assumption.
      rewrite T2, T1, <- app_assoc.
      vm_compute in Henc. inversion Henc. reflexivity.
    + destruct Hs as (_ & Henc & _). vm_compute in Henc. discriminate.
    + destruct Hs as (out & reads & Henc & T2 & _ & E & _).
      right. exists lines, raw, (map snd (arrived (clock w1) (rx w1))), reads.
      repeat split; try assumption.
      rewrite T2, T1, <- app_assoc.
      vm_compute in Henc. inversion Henc. reflexivity.
    + exact Hs.
  - destruct Hw as (lines & T1 & _ & _ & N & Y).
    left. exists lines. repeat split; assumption.
Qed.

(** X8.  The greeting is answered 05 00 whatever it says: the version byte is
    not looked at, and neither are the methods offered, however many come.
    The only greeting that is refused is one whose first [recv] does not
    give exactly two bytes: [struct.error], and no answer. *)
Theorem negotiate_accepts_any_greeting :
  forall w,
    match negotiate w with
    | Ret _ w' =>
      exists ver nmethods methods,
        trace w' = trace w ++ [CliRecv [ver; nmethods]; CliRecv methods;
                               CliSend [0x05; 0x00]] /\
        (length methods <= Z.to_nat nmethods)%nat
    | Raise e w' =>
      (e = StructError /\
       exists g, length g <> 2%nat /\ trace w' = trace w ++ [CliRecv g])
      \/ (e = BlockingIOError /\ cblocking w = false /\ sent (trace w') = sent (trace w))
    | Blocked w' => cin w' = [] /\ sent (trace w') = sent (trace w)
    | OutOfFuel => False
    end.
Proof.
  intros w. unfold negotiate. unfold bind at 1.
  assert (Hrecv : forall n w0,
    match cli_recv n w0 with
    | Ret b w' => trace w' = trace w0 ++ [CliRecv b] /\ (length b <= n)%nat /\
                  cblocking w' = cblocking w0
    | Raise e w' => e = BlockingIOError /\ w' = w0 /\ cblocking w0 = false
    | Blocked w' => w' = w0 /\ cin w0 = []
    | OutOfFuel => False
    end).
  { intros n w0. unfold cli_recv. destruct n.
    - repeat split. simpl. lia.
    - destruct (cin w0) as [|[|x seg] rest] eqn:Hc.
      + destruct (cblocking w0) eqn:Hb; repeat split; assumption.
      + repeat split. simpl. lia.
      + repeat split. rewrite length_firstn. lia. }
  pose proof (Hrecv 2%nat w) as H1.
  destruct (cli_recv 2 w) as [g wa|e wa|wa|]; try contradiction.
  - destruct H1 as (T1 & L1 & B1).
    destruct g as [|ver [|nm [|x g]]].
    + unfold raise. left. split; [reflexivity|]. exists []. split; [discriminate | exact T1].
    + unfold raise. left. split; [reflexivity|]. exists [ver]. split; [discriminate | exact T1].
    + unfold bind at 1.
      pose proof (Hrecv (Z.to_nat nm) wa) as H2.
      destruct (cli_recv (Z.to_nat nm) wa) as [ms wb|e wb|wb|]; try contradiction.
      * destruct H2 as (T2 & L2 & _). rewrite cli_sendall_eq.
        exists ver, nm, ms. cbn [trace emit].
        rewrite T2, T1, <- !app_assoc. split; [reflexivity | exact L2].
      * destruct H2 as (-> & -> & Hb). right.
        repeat split; try congruence.
        rewrite T1, sent_app. cbn [sent]. rewrite app_nil_r. reflexivity.
      * destruct H2 as (-> & Hc). split; [exact Hc|].
        rewrite T1, sent_app. cbn [sent]. rewrite app_nil_r. reflexivity.
    + simpl in L1. lia.
  - destruct H1 as (-> & -> & Hb). right. repeat split; assumption.
  - destruct H1 as (-> & Hc). split; [exact Hc | reflexivity].
Qed.

Lemma close_cmd_encodes :
  forall m,
    encode ((lit "AT+QICLOSE=" ++ str_of_int (sock_id m) ++ lit ",10") ++ CR) =
    Some (lit "AT+QICLOSE=" ++ str_of_int (sock_id m) ++ lit ",10" ++ CR).
Proof.
  intros m. rewrite <- !app_assoc. apply encode_ascii.
  rewrite !forallb_app, str_of_int_ascii. reflexivity.
Qed.

(** X9.  After a successful open, the modem's socket is closed only when the
    relay loop returns: then [close_tcp] empties the input buffer, writes
    AT+QICLOSE=<id>,10 and reads the answer, and the client socket is closed
    after that.  When the relay loop raises (a send that times out, a length
    that cannot be read) the exception leaves [handle_client] with the client
    socket closed and no close command written to the modem. *)
Theorem modem_socket_closed_only_when_relay_returns :
  forall m sel w w0 w1 w2 w3 w4 atyp addr port,
    negotiate w = Ret tt w0 ->
    read_request_header w0 = Ret (1, atyp) w1 ->
    read_address atyp w1 = Ret (Some addr) w2 ->
    read_port w2 = Ret port w3 ->
    open_tcp_direct_push m addr port w3 = Ret true w4 ->
    match relay_loop m sel
            (set_cblocking false (emit (CliSend REPLY_SUCCEEDED) w4)) with
    | Ret _ w6 =>
      match handle_client m sel w with
      | Ret _ w' =>
        exists junk reads,
          trace w' = trace w6 ++
            SerReset junk
            :: SerWrite (lit "AT+QICLOSE=" ++ str_of_int (sock_id m)
                         ++ lit ",10" ++ CR)
            :: map SerRead reads ++ [CliClose]
      | Blocked w' =>
        exists junk reads,
          trace w' = trace w6 ++
            SerReset junk
            :: SerWrite (lit "AT+QICLOSE=" ++ str_of_int (sock_id m)
                         ++ lit ",10" ++ CR)
            :: map SerRead reads
      | Raise _ _ => False
      | OutOfFuel => False
      end
    | Raise e w6 => handle_client m sel w = Raise e (emit CliClose w6)
    | Blocked w6 => handle_client m sel w = Blocked w6
    | OutOfFuel => False
    end.
Proof.
  intros m sel w w0 w1 w2 w3 w4 atyp addr port Hn Hh Ha Hp Ho.
  set (w5 := set_cblocking false (emit (CliSend REPLY_SUCCEEDED) w4)).
  assert (E : handle_client m sel w =
              match relay_loop m sel w5 with
              | Ret _ w6 =>
                match close_tcp m w6 with
                | Ret a w7 => Ret a (emit CliClose w7)
                | Raise e w7 => Raise e (emit CliClose w7)
                | Blocked w7 => Blocked w7
                | OutOfFuel => OutOfFuel
                end
              | Raise e w6 => Raise e (emit CliClose w6)
              | Blocked w6 => Blocked w6
              | OutOfFuel => OutOfFuel
              end).
  { rewrite (handle_client_after_request m sel _ _ _ _ _ _ _ _ Hn Hh Ha Hp).
    unfold try_finally, connect_and_relay. unfold bind at 1. rewrite Ho.
    cbn [negb]. unfold bind at 1. rewrite cli_sendall_eq.
    unfold bind, cli_setblocking. fold w5.
    destruct (relay_loop m sel w5) as [[] w6|e w6|w6|]; try reflexivity;
      try (destruct (close_tcp m w6) as [[] w7|e w7|w7|]; reflexivity). }
  pose proof (tame_relay_loop m sel w5) as Ht.
  destruct (relay_loop m sel w5) as [[] w6|e w6|w6|]; try exact E;
    [|exact Ht].
  rewrite E. clear E.
  unfold close_tcp. unfold bind at 1.
  pose proof (send_at_spec (lit "AT+QICLOSE=" ++ str_of_int (sock_id m) ++ lit ",10")
                2000 w6) as Hs.
  cbv zeta in Hs. rewrite close_cmd_encodes in Hs.
  destruct (_send_at _ 2000 w6) as [resp w7|e w7|w7|].
  - destruct Hs as (out & reads & Henc & T & _). inversion Henc; subst out.
    unfold ret. cbn [trace emit].
    exists (map snd (arrived (clock w6) (rx w6))), reads.
    rewrite T, <- app_assoc. reflexivity.
  - destruct Hs as (_ & Henc & _). discriminate.
  - destruct Hs as (out & reads & Henc & T & _). inversion Henc; subst out.
    exists (map snd (arrived (clock w6) (rx w6))), reads. exact T.
  - exact Hs.
Qed.

(** ** The open command and its result *)

Lemma qiopen_cmd_encodes :
  forall m host port,
    forallb is_ascii host = true ->
    encode (qiopen_cmd m host port ++ CR) =
    Some (lit "AT+QIOPEN=" ++ str_of_int (cid m) ++ lit ","
          ++ str_of_int (sock_id m) ++ lit "," ++ DQUOTE ++ lit "TCP" ++ DQUOTE
          ++ lit "," ++ DQUOTE ++ host ++ DQUOTE ++ lit ","
          ++ str_of_int port ++ lit ",0,1" ++ CR).
Proof.
  intros m host port H. unfold qiopen_cmd. rewrite <- !app_assoc.
  apply encode_ascii.
  rewrite !forallb_app, !str_of_int_ascii, H. reflexivity.
Qed.

(** X10.  A domain name of ASCII bytes is handed to the modem as the client sent
    it: [read_address] returns the bytes received, and the open command that
    [open_tcp_direct_push] writes holds them between its double quotes with
    nothing escaped or checked, a double quote or a carriage return among
    them included.  That command is the only thing the open writes, and the
    open raises nothing. *)
Theorem domain_name_reaches_modem_unescaped :
  forall m alen d port w wa w2 w3,
    cli_recv 1 w = Ret [alen] wa ->
    cli_recv (Z.to_nat alen) wa = Ret d w2 ->
    forallb is_ascii d = true ->
    read_address 3 w = Ret (Some d) w2 /\
    match open_tcp_direct_push m d port w3 with
    | Ret _ w' | Blocked w' =>
      exists junk reads,
        trace w' = trace w3 ++
          SerReset junk
          :: SerWrite (lit "AT+QIOPEN=" ++ str_of_int (cid m) ++ lit ","
                       ++ str_of_int (sock_id m) ++ lit "," ++ DQUOTE
                       ++ lit "TCP" ++ DQUOTE ++ lit "," ++ DQUOTE ++ d
                       ++ DQUOTE ++ lit "," ++ str_of_int port ++ lit ",0,1"
                       ++ CR)
          :: map SerRead reads
    | Raise _ _ => False
    | OutOfFuel => False
    end.
Proof.
  intros m alen d port w wa w2 w3 H1 H2 Hd. split.
  - unfold read_address. cbn [Z.eqb Pos.eqb]. unfold bind at 1. rewrite H1.
    unfold bind at 1. rewrite H2.
    rewrite (decode_strict_ascii d Hd). reflexivity.
  - unfold open_tcp_direct_push. unfold bind at 1.
    pose proof (send_at_spec (qiopen_cmd m d port) 2000 w3) as Hs.
    cbv zeta in Hs. rewrite (qiopen_cmd_encodes m d port Hd) in Hs.
    destruct (_send_at (qiopen_cmd m d port) 2000 w3) as [resp w4|e w4|w4|].
    + destruct Hs as (out & reads & Henc & T & _). inversion Henc; subst out.
      destruct (open_poll_spec m w4) as (b & w5 & reads' & E & T' & _).
      rewrite E. exists (map snd (arrived (clock w3) (rx w3))), (reads ++ reads').
      rewrite T', T, map_app, <- app_assoc. reflexivity.
    + destruct Hs as (_ & Henc & _). discriminate.
    + destruct Hs as (out & reads & Henc & T & _). inversion Henc; subst out.
      exists (map snd (arrived (clock w3) (rx w3))), reads. exact T.
    + exact Hs.
Qed.

Lemma domain_name_reaches_modem_unescaped_witness :
  exists w2,
    read_address 3
      (fresh_world [] [[8]; lit "a" ++ DQUOTE ++ lit ";b" ++ CR ++ lit "ATH"])
    = Ret (Some (lit "a" ++ DQUOTE ++ lit ";b" ++ CR ++ lit "ATH")) w2.
Proof.
  eexists. eapply proj1.
  eapply (domain_name_reaches_modem_unescaped the_modem 8
            (lit "a" ++ DQUOTE ++ lit ";b" ++ CR ++ lit "ATH") 80
            (fresh_world [] [[8]; lit "a" ++ DQUOTE ++ lit ";b" ++ CR ++ lit "ATH"])
            _ _ (fresh_world [] [])).
  - vm_compute. reflexivity.
  - vm_compute. reflexivity.
  - vm_compute. reflexivity.
Defined.

Lemma splitlines_from_one_line :
  forall s cur,
    forallb (fun c => negb (is_linebreak c)) s = true ->
    s <> [] \/ cur <> [] ->
    splitlines_from cur s = [rev cur ++ s].
Proof.
  induction s as [|c s IH]; intros cur H Hne.
  - destruct Hne as [Hne|Hne]; [congruence|].
    destruct cur; [congruence|]. cbn [splitlines_from]. rewrite app_nil_r.
    reflexivity.
  - cbn [forallb] in H. apply andb_prop in H. destruct H as [Hc Hs].
    apply negb_true_iff in Hc. cbn [splitlines_from].
    assert (H13 : (c =? 13) = false).
    { destruct (Z.eqb_spec c 13) as [->|]; [discriminate Hc | reflexivity]. }
    rewrite H13, Hc, (IH (c :: cur) Hs) by (right; discriminate).
    cbn [rev]. rewrite <- app_assoc. reflexivity.
Qed.

Lemma digit_not_linebreak :
  forall c, is_digit c = true -> negb (is_linebreak c) = true.
Proof.
  intros c H. unfold is_digit in H. apply andb_prop in H.
  destruct H as [H1 H2]. apply Z.leb_le in H1. apply Z.leb_le in H2.
  unfold is_linebreak. apply negb_true_iff.
  repeat match goal with
         | |- context [?a <=? ?b] => destruct (Z.leb_spec a b); try lia
         | |- context [?a =? ?b] => destruct (Z.eqb_spec a b); try lia
         end; reflexivity.
Qed.

Lemma str_of_int_one_line :
  forall z, forallb (fun c => negb (is_linebreak c)) (str_of_int z) = true.
Proof.
  intros z.
  assert (D : forall u,
             forallb (fun c => negb (is_linebreak c))
                     (lit (NilEmpty.string_of_uint u)) = true).
  { intros u. pose proof (uint_digits u) as H.
    induction (lit (NilEmpty.string_of_uint u)) as [|c s IH]; [reflexivity|].
    cbn [forallb] in *. apply andb_prop in H. destruct H as [Hc Hs].
    rewrite (digit_not_linebreak c Hc), (IH Hs). reflexivity. }
  destruct z as [|p|p].
  - reflexivity.
  - rewrite str_of_int_pos. apply D.
  - rewrite str_of_int_neg. cbn [forallb]. rewrite D. reflexivity.
Qed.

Lemma contains_longer :
  forall p s, (length s < length p)%nat -> contains p s = false.
Proof.
  intros p s H. destruct (contains p s) eqn:E; [|reflexivity].
  apply contains_length in E. lia.
Qed.

Lemma scan_cut_result_line :
  forall m, scan_open_lines m (splitlines (CRLF ++ qiopen_any m)) = Some false.
Proof.
  intros m.
  assert (S1 : splitlines (CRLF ++ qiopen_any m) = [[]; qiopen_any m]).
  { unfold splitlines. change (CRLF ++ qiopen_any m) with (13 :: 10 :: qiopen_any m).
    cbn [splitlines_from Z.eqb Pos.eqb rev]. f_equal.
    rewrite splitlines_from_one_line.
    - reflexivity.
    - unfold qiopen_any. rewrite !forallb_app, str_of_int_one_line. reflexivity.
    - left. unfold qiopen_any. discriminate. }
  rewrite S1. cbn [scan_open_lines].
  assert (L1 : length (qiopen_ok m) = S (length (qiopen_any m))).
  { unfold qiopen_ok, qiopen_any. rewrite !length_app. simpl. lia. }
  rewrite (contains_longer (qiopen_ok m) []) by (rewrite L1; simpl; lia).
  rewrite (contains_longer (qiopen_any m) [])
    by (unfold qiopen_any; rewrite !length_app; simpl; lia).
  rewrite (contains_longer (qiopen_ok m) (qiopen_any m)) by (rewrite L1; lia).
  replace (contains (qiopen_any m) (qiopen_any m)) with true.
  2:{ symmetry. pose proof (contains_inside [] (qiopen_any m) []) as H.
      cbn [app] in H. rewrite app_nil_r in H. exact H. }
  unfold qiopen_any. reflexivity.
Qed.

Lemma skipn_arrived :
  forall t r, skipn (length (arrived t r)) r = pending t r.
Proof.
  intros t r. induction r as [|[a b] r IH]; [reflexivity|].
  simpl. destruct (a <=? t); [simpl; exact IH | reflexivity].
Qed.

(** X11.  A result line caught in two reads is a failure.  When a poll of
    [open_tcp_direct_push] finds in the input buffer the start of the result
    line up to the comma after the socket id, and the result code has not
    arrived yet, the open returns False at once, without a sleep and without
    reading further: the code, 0 for success included, is left unread. *)
Theorem open_fails_on_result_line_cut_short :
  forall m w,
    map snd (arrived (clock w) (rx w)) = CRLF ++ qiopen_any m ->
    exists w',
      open_poll m w = Ret false w' /\
      trace w' = trace w ++ [SerRead (CRLF ++ qiopen_any m)] /\
      rx w' = pending (clock w) (rx w) /\
      clock w' = clock w.
Proof.
  intros m w H. unfold open_poll. unfold bind at 1, now at 1. cbv zeta.
  change 101%nat with (S 100). generalize 100%nat. intros fuel.
  cbn [loop]. unfold bind at 1. unfold open_poll_turn at 1.
  unfold bind at 1, now at 1.
  destruct (Z.ltb_spec (clock w) (clock w + 10000)) as [_|]; [|lia].
  unfold bind at 1, in_waiting at 1.
  assert (Hlen : length (arrived (clock w) (rx w))
                 = S (S (length (qiopen_any m)))).
  { rewrite <- (length_map snd), H. reflexivity. }
  rewrite Hlen. unfold bind at 1.
  unfold ser_read. rewrite <- Hlen.
  pose proof (arrived_length (clock w) (rx w)) as Hle.
  destruct (Nat.ltb_spec (length (rx w)) (length (arrived (clock w) (rx w))))
    as [|_]; [lia|].
  rewrite firstn_arrived, H, arrival_arrived.
  cbn [app].
  rewrite decode_ignore_ascii.
  2:{ unfold qiopen_any. rewrite !forallb_app, str_of_int_ascii. reflexivity. }
  rewrite scan_cut_result_line. unfold ret.
  eexists. split; [reflexivity|]. cbn [trace emit rx set_rx clock set_clock].
  split; [reflexivity|]. split; [|reflexivity].
  apply skipn_arrived.
Qed.

Lemma open_fails_on_result_line_cut_short_witness :
  exists w',
    open_poll the_modem
      (mkWorld 1000
         (modem_says 999 (CRLF ++ lit "+QIOPEN: 0,") ++
          modem_says 1001 (lit "0" ++ CRLF)) [] true [])
    = Ret false w' /\
    map snd (rx w') = lit "0" ++ CRLF.
Proof.
  edestruct (open_fails_on_result_line_cut_short the_modem
               (mkWorld 1000
                  (modem_says 999 (CRLF ++ lit "+QIOPEN: 0,") ++
                   modem_says 1001 (lit "0" ++ CRLF)) [] true []))
    as (w' & E & _ & R & _).
  - vm_compute. reflexivity.
  - exists w'. split; [exact E|]. rewrite R. vm_compute. reflexivity.
Defined.

Lemma modem_socket_closed_only_when_relay_returns_witness :
  let w :=
    fresh_world
      (modem_says 5 (CRLF ++ lit "OK" ++ CRLF) ++
       modem_says 900 (CRLF ++ lit "+QIOPEN: 0,0" ++ CRLF) ++
       modem_says 1500 (CRLF ++ lit "OK" ++ CRLF))
      [[5; 1; 0]; [5; 1; 0; 1; 93; 184; 216; 34; 0; 80]; []] in
  exists w4,
    match relay_loop the_modem [(true, false, 0%nat)]
            (set_cblocking false (emit (CliSend REPLY_SUCCEEDED) w4)) with
    | Ret _ w6 =>
      match handle_client the_modem [(true, false, 0%nat)] w with
      | Ret _ w' =>
        exists junk reads,
          trace w' = trace w6 ++
            SerReset junk
            :: SerWrite (lit "AT+QICLOSE=" ++ str_of_int (sock_id the_modem)
                         ++ lit ",10" ++ CR)
            :: map SerRead reads ++ [CliClose]
      | Blocked w' =>
        exists junk reads,
          trace w' = trace w6 ++
            SerReset junk
            :: SerWrite (lit "AT+QICLOSE=" ++ str_of_int (sock_id the_modem)
                         ++ lit ",10" ++ CR)
            :: map SerRead reads
      | Raise _ _ => False
      | OutOfFuel => False
      end
    | Raise e w6 =>
      handle_client the_modem [(true, false, 0%nat)] w = Raise e (emit CliClose w6)
    | Blocked w6 => handle_client the_modem [(true, false, 0%nat)] w = Blocked w6
    | OutOfFuel => False
    end.
Proof.
  intros w. eexists.
  eapply (modem_socket_closed_only_when_relay_returns
            the_modem [(true, false, 0%nat)] w _ _ _ _ _ 1 _ 80).
  - vm_compute. reflexivity.
  - vm_compute. reflexivity.
  - vm_compute. reflexivity.
  - vm_compute. reflexivity.
  - vm_compute. reflexivity.
Defined.
